(** * The in-memory FIFO task queue of the Woodpecker server

    A shallow embedding of [server/queue/fifo.go] and the properties of its
    specification.  The Go code works on one [fifo] struct guarded by a
    mutex and on heap objects it shares by pointer: the tasks handed in by
    the producers ([*model.Task]), the lease entries ([*entry]) a blocked
    [Wait] keeps after they left the running map, and the workers
    ([*worker]) a blocked [Poll] keeps after the dispatcher removed them.
    The embedding therefore keeps three heaps next to the struct.  Every
    method is modelled as the critical section it runs under the mutex; the
    two blocking methods, [Poll] and [Wait], are split at the point where
    they release the mutex and block in a [select], and a [select] is given
    the case it takes.

    What the model takes from outside: the time ([time.Now()] is an
    argument, read once per call), the order in which [range] walks a map
    (class [MapOrder]), and the types of [queue.go] and [model] the file
    uses ([Task], [FilterFn], [InfoT], [ErrNotFound]).  Closing a closed
    channel is a panic and sending on the full channel of a worker blocks
    the dispatcher for ever; both are outcomes of the model, and shown not
    to happen. *)

From stdpp Require Import gmap strings list fin_maps fin_sets.

#[global] Set Warnings "-clear-no-such-hyp".

(** ** Pointers, errors, results *)

(** Non-nil pointers to a task, an entry and a worker. *)
Definition tref := nat.
Definition eref := nat.
Definition wref := nat.

(** Go's [error] values that occur in the file; [None] is [nil].
    [ErrNotFound] is declared in [queue.go]. *)
Inductive error_value :=
  | ErrNotFound                 (* queue.ErrNotFound *)
  | ErrCanceled                 (* context.Canceled *)
  | ErrDeadlineExceeded         (* context.DeadlineExceeded *)
  | ErrWorkerKicked             (* fmt.Errorf("worker was kicked") *)
  | ErrOther (msg : string).    (* an error of the caller *)

Definition goerror := option error_value.

#[global] Instance error_value_eq_dec : EqDecision error_value.
Proof. solve_decision. Defined.

(** Outcome of a critical section: it completes, or it panics (closing a
    closed channel), or it blocks for ever holding the mutex (sending on a
    full channel), or the model's loop bound was too small. *)
Inductive result (A : Type) :=
  | Ok (a : A)
  | Panic
  | Blocked
  | OutOfFuel.
Arguments Ok {A} a.
Arguments Panic {A}.
Arguments Blocked {A}.
Arguments OutOfFuel {A}.

#[global] Instance result_ret : MRet result := λ A a, Ok a.
#[global] Instance result_bind : MBind result := λ A B f m,
  match m with
  | Ok a => f a
  | Panic => Panic
  | Blocked => Blocked
  | OutOfFuel => OutOfFuel
  end.

(** ** Data model *)

(** Modelled from the spec: [model.StatusValue] (package [model] is not
    among the sources), the final status of a task: success, failure,
    skipped and so on.  Only [StatusFailure] is named by the queue. *)
Definition StatusValue := string.
Definition StatusFailure : StatusValue := "failure".

(** Modelled from the spec: [model.Task] (package [model] is not among
    the sources): an id, the agent slot, the ordered dependencies, the map
    from a dependency to its final status, and attributes that only the
    filters look at.  The queue reads [ID] and [Dependencies] and writes
    [DepStatus] and [AgentID].  [DepStatus] is an allocated map (writing to
    a nil map is outside the model). *)
Record Task := mkTask {
  ID : string;
  Labels : gmap string string;
  Dependencies : list string;
  DepStatus : gmap string StatusValue;
  AgentID : Z;
}.

#[global] Instance Task_inhabited : Inhabited Task :=
  populate (mkTask "" ∅ [] ∅ 0).

(** A [chan bool] that is never sent on, only closed. *)
Inductive chan_state := Open | Closed.

#[global] Instance chan_state_eq_dec : EqDecision chan_state.
Proof. solve_decision. Defined.

Module Entry.
(** [type entry struct]. *)
Record t := mk {
  item : tref;
  done : chan_state;
  error : goerror;
  deadline : Z;
}.
#[global] Instance entry_inhabited : Inhabited t :=
  populate (mk 0 Open None 0).
Definition set_done (c : chan_state) (e : t) : t :=
  mk (item e) c (error e) (deadline e).
Definition set_error (x : goerror) (e : t) : t :=
  mk (item e) (done e) x (deadline e).
Definition set_deadline (d : Z) (e : t) : t :=
  mk (item e) (done e) (error e) d.
End Entry.

(** Modelled from the spec: [FilterFn] (declared in [queue.go], not among
    the sources), a predicate on a task; it is applied to the current
    contents of the task it is given. *)
Definition FilterFn := Task → bool.

Module Worker.
(** [type worker struct].  [channel] is the buffered channel of capacity
    one: [None] when empty, [Some t] when it holds a task.  [stop] cancels
    the context [Poll] derives with [context.WithCancelCause]; the cell
    keeps that context's state: [ctx_err] is its [Err()] ([None] while it
    is not done) and [ctx_cause] its cause. *)
Record t := mk {
  agentID : Z;
  filter : FilterFn;
  channel : option tref;
  ctx_err : goerror;
  ctx_cause : goerror;
}.
#[global] Instance worker_inhabited : Inhabited t :=
  populate (mk 0 (λ _, false) None None None).
Definition set_channel (c : option tref) (w : t) : t :=
  mk (agentID w) (filter w) c (ctx_err w) (ctx_cause w).
(** Cancelling a context that is already done changes nothing. *)
Definition cancel (err cause : error_value) (w : t) : t :=
  match ctx_err w with
  | Some _ => w
  | None => mk (agentID w) (filter w) (channel w) (Some err) (Some cause)
  end.
(** [w.stop(cause)]. *)
Definition stop (cause : error_value) (w : t) : t :=
  cancel ErrCanceled cause w.
End Worker.

(** [type fifo struct] (without the mutex). *)
Record fifo := mkFifo {
  workers : gset wref;
  running : gmap string eref;
  pending : list tref;
  waitingOnDeps : list tref;
  extension : Z;
  paused : bool;
}.

(** The queue together with the memory it points into, and the number of
    dispatcher goroutines started with [go q.process()] that did not run
    yet. *)
Record state := mkState {
  queue : fifo;
  tasks : gmap tref Task;
  entries : gmap eref Entry.t;
  wheap : gmap wref Worker.t;
  dispatchers : nat;
}.

Definition set_workers (x : gset wref) (q : fifo) : fifo :=
  mkFifo x (running q) (pending q) (waitingOnDeps q) (extension q) (paused q).
Definition set_running (x : gmap string eref) (q : fifo) : fifo :=
  mkFifo (workers q) x (pending q) (waitingOnDeps q) (extension q) (paused q).
Definition set_pending (x : list tref) (q : fifo) : fifo :=
  mkFifo (workers q) (running q) x (waitingOnDeps q) (extension q) (paused q).
Definition set_waitingOnDeps (x : list tref) (q : fifo) : fifo :=
  mkFifo (workers q) (running q) (pending q) x (extension q) (paused q).
Definition set_paused (x : bool) (q : fifo) : fifo :=
  mkFifo (workers q) (running q) (pending q) (waitingOnDeps q) (extension q) x.

Definition set_queue (q : fifo) (σ : state) : state :=
  mkState q (tasks σ) (entries σ) (wheap σ) (dispatchers σ).
Definition set_tasks (h : gmap tref Task) (σ : state) : state :=
  mkState (queue σ) h (entries σ) (wheap σ) (dispatchers σ).
Definition set_entries (h : gmap eref Entry.t) (σ : state) : state :=
  mkState (queue σ) (tasks σ) h (wheap σ) (dispatchers σ).
Definition set_wheap (h : gmap wref Worker.t) (σ : state) : state :=
  mkState (queue σ) (tasks σ) (entries σ) h (dispatchers σ).
Definition set_dispatchers (n : nat) (σ : state) : state :=
  mkState (queue σ) (tasks σ) (entries σ) (wheap σ) n.

(** Dereferences.  A Go pointer that is not nil always points to an
    object, so the lookups are total. *)
Definition task_at (σ : state) (p : tref) : Task := tasks σ !!! p.
Definition entry_at (σ : state) (e : eref) : Entry.t := entries σ !!! e.
Definition worker_at (σ : state) (w : wref) : Worker.t := wheap σ !!! w.
Definition task_id (σ : state) (p : tref) : string := ID (task_at σ p).

(** [go q.process()]: one more dispatcher pass is due. *)
Definition go_process (σ : state) : state :=
  set_dispatchers (S (dispatchers σ)) σ.

(** The order in which [range] walks a Go map is not specified.  The
    model takes it from an arbitrary enumeration of the map's contents. *)
Class MapOrder := {
  range_running : gmap string eref → list (string * eref);
  range_running_perm m : range_running m ≡ₚ map_to_list m;
  range_workers : gset wref → list wref;
  range_workers_perm s : range_workers s ≡ₚ elements s;
}.

(** The enumeration stdpp computes is one such order. *)
Definition canonical_order : MapOrder :=
  {| range_running := map_to_list;
     range_running_perm m := reflexivity _;
     range_workers := elements;
     range_workers_perm s := reflexivity _ |}.

(** Modelled from the spec: [InfoT] (declared in [queue.go], not among
    the sources), as far as [Info] fills it. *)
Module InfoStats.
Record t := mk {
  Workers : nat;
  Pending : nat;
  WaitingOnDeps : nat;
  Running : nat;
}.
End InfoStats.

Record InfoT := mkInfoT {
  Pending : list tref;
  WaitingOnDeps : list tref;
  Running : list tref;
  Stats : InfoStats.t;
  Paused : bool;
}.

(** ** Heap and struct updates *)

Definition upd_queue (f : fifo → fifo) (σ : state) : state :=
  set_queue (f (queue σ)) σ.
Definition upd_task (p : tref) (f : Task → Task) (σ : state) : state :=
  set_tasks (<[p := f (task_at σ p)]> (tasks σ)) σ.
Definition upd_entry (e : eref) (f : Entry.t → Entry.t) (σ : state) : state :=
  set_entries (<[e := f (entry_at σ e)]> (entries σ)) σ.
Definition upd_worker (w : wref) (f : Worker.t → Worker.t) (σ : state) : state :=
  set_wheap (<[w := f (worker_at σ w)]> (wheap σ)) σ.

Definition set_AgentID (a : Z) (t : Task) : Task :=
  mkTask (ID t) (Labels t) (Dependencies t) (DepStatus t) a.
(** [t.DepStatus[dep] = status]. *)
Definition set_DepStatus (dep : string) (status : StatusValue) (t : Task) : Task :=
  mkTask (ID t) (Labels t) (Dependencies t) (<[dep := status]> (DepStatus t))
         (AgentID t).

(** [close(ch)]: closing a closed channel panics. *)
Definition close_done (e : eref) (σ : state) : result state :=
  match Entry.done (entry_at σ e) with
  | Closed => Panic
  | Open => Ok (upd_entry e (Entry.set_done Closed) σ)
  end.

(** [w.channel <- task] on the buffered channel: with the slot taken the
    sender blocks. *)
Definition send_task (w : wref) (task : tref) (σ : state) : result state :=
  match Worker.channel (worker_at σ w) with
  | Some _ => Blocked
  | None => Ok (upd_worker w (Worker.set_channel (Some task)) σ)
  end.

(** A [for ... range] loop whose body may panic or block. *)
Fixpoint for_each {A : Type} (body : A → state → result state)
    (l : list A) (σ : state) : result state :=
  match l with
  | [] => Ok σ
  | x :: l' => σ' ← body x σ; for_each body l' σ'
  end.

(** Removes the first element of a [container/list] whose task has the
    given id; [None] when there is none. *)
Fixpoint remove_first (σ : state) (id : string) (l : list tref)
    : option (list tref) :=
  match l with
  | [] => None
  | p :: l' =>
      if bool_decide (task_id σ p = id) then Some l'
      else (p ::.) <$> remove_first σ id l'
  end.

(** ** The methods of [fifo] *)

Section Queue.
Context {order : MapOrder}.

(** [New]: ten minutes of lease, in nanoseconds. *)
Definition New : fifo := mkFifo ∅ ∅ [] [] 600000000000 false.

(** The program state right after [New], over the tasks [th] the
    producers hold. *)
Definition init (th : gmap tref Task) : state := mkState New th ∅ ∅ 0.

(** [Push] (returns nil). *)
Definition Push (task : tref) (σ : state) : state :=
  go_process (upd_queue (λ q, set_pending (pending q ++ [task]) q) σ).

(** [PushAtOnce] (returns nil). *)
Definition PushAtOnce (tasks : list tref) (σ : state) : state :=
  go_process
    (foldl (λ σ task, upd_queue (λ q, set_pending (pending q ++ [task]) q) σ)
           σ tasks).

(** [Poll], up to the [select]: [c] is [Err()] of the caller's context
    when the call starts.  Returns the new worker. *)
Definition Poll_register (c : goerror) (agentID : Z) (f : FilterFn)
    (σ : state) : wref * state :=
  let w := fresh (dom (wheap σ)) in
  let σ1 := set_wheap (<[w := Worker.mk agentID f None c c]> (wheap σ)) σ in
  (w, go_process (upd_queue (λ q, set_workers ({[w]} ∪ workers q) q) σ1)).

(** The caller's context of a [Poll] is cancelled with error [e]: the
    derived context becomes done unless it already is. *)
Definition cancel_context (w : wref) (e : error_value) (σ : state) : state :=
  upd_worker w (Worker.cancel e e) σ.

(** The two cases of the [select] in [Poll]. *)
Inductive poll_case := PollCtxDone | PollReceive.

(** [Poll], one round of the [select] taking case [cs]: [None] when that
    case is not ready, otherwise the new state and the pair returned. *)
Definition Poll_select (w : wref) (cs : poll_case) (σ : state)
    : option (state * (option tref * goerror)) :=
  match cs with
  | PollCtxDone =>
      match Worker.ctx_err (worker_at σ w) with
      | Some e =>
          Some (upd_queue (λ q, set_workers (workers q ∖ {[w]}) q) σ,
                (None, Some e))
      | None => None
      end
  | PollReceive =>
      match Worker.channel (worker_at σ w) with
      | Some t => Some (upd_worker w (Worker.set_channel None) σ, (Some t, None))
      | None => None
      end
  end.

(** [removeFromPending]. *)
Definition removeFromPending (taskID : string) (σ : state) : state :=
  match remove_first σ taskID (pending (queue σ)) with
  | Some l => upd_queue (set_pending l) σ
  | None => σ
  end.

(** The inner loop of [updateDepStatusInQueue] on one task. *)
Definition updateDepStatus (taskID : string) (status : StatusValue)
    (σ : state) (p : tref) : state :=
  foldl (λ σ dep,
           if bool_decide (taskID = dep)
           then upd_task p (set_DepStatus dep status) σ else σ)
        σ (Dependencies (task_at σ p)).

(** [updateDepStatusInQueue]: pending, then running, then waiting. *)
Definition updateDepStatusInQueue (taskID : string) (status : StatusValue)
    (σ : state) : state :=
  let σ1 := foldl (updateDepStatus taskID status) σ (pending (queue σ)) in
  let σ2 := foldl (λ σ kv, updateDepStatus taskID status σ
                             (Entry.item (entry_at σ kv.2)))
                  σ1 (range_running (running (queue σ1))) in
  foldl (updateDepStatus taskID status) σ2 (waitingOnDeps (queue σ2)).

(** The body of the loop of [finished]. *)
Definition finished_id (exitStatus : StatusValue) (err : goerror)
    (id : string) (σ : state) : result state :=
  σ1 ← match running (queue σ) !! id with
        | Some taskEntry =>
            σa ← close_done taskEntry
                   (upd_entry taskEntry (Entry.set_error err) σ);
            Ok (upd_queue (λ q, set_running (delete id (running q)) q) σa)
        | None => Ok (removeFromPending id σ)
        end;
  Ok (updateDepStatusInQueue id exitStatus σ1).

(** [finished]: the new state and the error returned. *)
Definition finished (ids : list string) (exitStatus : StatusValue)
    (err : goerror) (σ : state) : result (state * goerror) :=
  σ' ← for_each (finished_id exitStatus err) ids σ; Ok (σ', None).

Definition Done (id : string) (exitStatus : StatusValue) (σ : state)
    : result (state * goerror) :=
  finished [id] exitStatus None σ.

Definition Error (id : string) (err : goerror) (σ : state)
    : result (state * goerror) :=
  finished [id] StatusFailure err σ.

Definition ErrorAtOnce (ids : list string) (err : goerror) (σ : state)
    : result (state * goerror) :=
  finished ids StatusFailure err σ.

(** [EvictAtOnce]: the new state and the error returned. *)
Fixpoint EvictAtOnce (ids : list string) (σ : state) : state * goerror :=
  match ids with
  | [] => (σ, Some ErrNotFound)
  | id :: ids' =>
      match remove_first σ id (pending (queue σ)) with
      | Some l => (upd_queue (set_pending l) σ, None)
      | None => EvictAtOnce ids' σ
      end
  end.

Definition Evict (id : string) (σ : state) : state * goerror :=
  EvictAtOnce [id] σ.

(** [Wait], the lookup under the mutex: [state := q.running[id]]. *)
Definition Wait_lookup (id : string) (σ : state) : option eref :=
  running (queue σ) !! id.

(** The two cases of the [select] in [Wait]. *)
Inductive wait_case := WaitCtxDone | WaitEntryDone.

(** [Wait], the [select] on entry [e] taking case [cs] in state [σ]; [c]
    is [Err()] of the caller's context.  [None] when that case is not
    ready, otherwise the error returned. *)
Definition Wait_select (c : goerror) (e : eref) (cs : wait_case) (σ : state)
    : option goerror :=
  match cs with
  | WaitCtxDone =>
      match c with
      | Some _ => Some None
      | None => None
      end
  | WaitEntryDone =>
      match Entry.done (entry_at σ e) with
      | Closed => Some (Entry.error (entry_at σ e))
      | Open => None
      end
  end.

(** [Wait]: the lookup happens in [σ], the [select] fires in [σ']. *)
Definition Wait (c : goerror) (id : string) (cs : wait_case) (σ σ' : state)
    : option goerror :=
  match Wait_lookup id σ with
  | Some e => Wait_select c e cs σ'
  | None => Some None
  end.

(** [Extend] at time [now]. *)
Definition Extend (now : Z) (id : string) (σ : state) : state * goerror :=
  match running (queue σ) !! id with
  | Some e =>
      (upd_entry e (Entry.set_deadline (now + extension (queue σ))) σ, None)
  | None => (σ, Some ErrNotFound)
  end.

Definition Pause (σ : state) : state := upd_queue (set_paused true) σ.

Definition Resume (σ : state) : state :=
  go_process (upd_queue (set_paused false) σ).

(** [KickAgentWorkers]. *)
Definition KickAgentWorkers (agentID : Z) (σ : state) : state :=
  foldl (λ σ w,
           if bool_decide (Worker.agentID (worker_at σ w) = agentID)
           then upd_queue (λ q, set_workers (workers q ∖ {[w]}) q)
                  (upd_worker w (Worker.stop ErrWorkerKicked) σ)
           else σ)
        σ (range_workers (workers (queue σ))).

(** [Info]: the counts, the task pointers of the three collections and
    the paused flag. *)
Definition Info (σ : state) : InfoT :=
  mkInfoT
    (pending (queue σ))
    (waitingOnDeps (queue σ))
    ((λ kv : string * eref, Entry.item (entry_at σ kv.2))
       <$> range_running (running (queue σ)))
    (InfoStats.mk (size (workers (queue σ)))
                  (length (pending (queue σ)))
                  (length (waitingOnDeps (queue σ)))
                  (size (running (queue σ))))
    (paused (queue σ)).

(** *** The dispatcher *)

(** The body of the loop of [resubmitExpiredPipelines];
    [time.Now().After(state.deadline)] is [deadline < now]. *)
Definition resubmit_entry (now : Z) (kv : string * eref) (σ : state)
    : result state :=
  let '(id, state) := kv in
  if bool_decide (Entry.deadline (entry_at σ state) < now)%Z then
    close_done state
      (upd_queue (λ q, set_running (delete id (running q))
                         (set_pending (Entry.item (entry_at σ state)
                                         :: pending q) q)) σ)
  else Ok σ.

(** [resubmitExpiredPipelines]; the clock is read once per pass. *)
Definition resubmitExpiredPipelines (now : Z) (σ : state) : result state :=
  for_each (resubmit_entry now) (range_running (running (queue σ))) σ.

(** [depsInQueue]: each loop returns true at the first hit. *)
Definition depsInQueue (σ : state) (task : tref) : bool :=
  existsb (λ possibleDep,
             existsb (λ dep, bool_decide (task_id σ possibleDep = dep))
                     (Dependencies (task_at σ task)))
          (pending (queue σ))
  || existsb (λ kv : string * eref,
                existsb (λ dep, bool_decide (kv.1 = dep))
                        (Dependencies (task_at σ task)))
             (range_running (running (queue σ))).

(** [filterWaiting].  The second loop reads [pending] and [running]
    without changing them, so the elements it collects in [filtered] and
    removes in the third loop are those on which [depsInQueue] holds. *)
Definition filterWaiting (σ : state) : state :=
  let σ1 := upd_queue (λ q, set_waitingOnDeps []
                              (set_pending (pending q ++ waitingOnDeps q) q)) σ in
  upd_queue (λ q, set_pending
                    (filter (λ t, depsInQueue σ1 t = false) (pending q))
                    (set_waitingOnDeps
                       (filter (λ t, depsInQueue σ1 t = true) (pending q)) q))
            σ1.

(** [assignToWorker] from position [i] on: the position of the element
    found, its task, and the worker. *)
Fixpoint assignToWorker_from (σ : state) (i : nat) (l : list tref)
    : option (nat * tref * wref) :=
  match l with
  | [] => None
  | task :: l' =>
      match find (λ w, Worker.filter (worker_at σ w) (task_at σ task))
                 (range_workers (workers (queue σ))) with
      | Some w => Some (i, task, w)
      | None => assignToWorker_from σ (S i) l'
      end
  end.

Definition assignToWorker (σ : state) : option (nat * tref * wref) :=
  assignToWorker_from σ 0 (pending (queue σ)).

(** The body of the loop of [process]. *)
Definition assign (now : Z) (i : nat) (task : tref) (worker : wref)
    (σ : state) : result state :=
  let σ1 := upd_task task
              (set_AgentID (Worker.agentID (worker_at σ worker))) σ in
  let σ2 := upd_queue (λ q, set_pending (delete i (pending q))
                              (set_workers (workers q ∖ {[worker]}) q)) σ1 in
  let e := fresh (dom (entries σ2)) in
  let σ3 := set_entries
              (<[e := Entry.mk task Open None (now + extension (queue σ2))]>
                 (entries σ2)) σ2 in
  let σ4 := upd_queue (λ q, set_running (<[task_id σ3 task := e]> (running q)) q)
              σ3 in
  send_task worker task σ4.

(** The loop of [process]; every round takes one element off [pending],
    so [length pending] rounds are enough. *)
Fixpoint assign_loop (fuel : nat) (now : Z) (σ : state) : result state :=
  match assignToWorker σ with
  | None => Ok σ
  | Some (i, task, worker) =>
      match fuel with
      | O => OutOfFuel
      | S fuel' => σ' ← assign now i task worker σ; assign_loop fuel' now σ'
      end
  end.

(** [process] at time [now]. *)
Definition process (now : Z) (σ : state) : result state :=
  if paused (queue σ) then Ok σ
  else
    σ1 ← resubmitExpiredPipelines now σ;
    let σ2 := filterWaiting σ1 in
    assign_loop (length (pending (queue σ2))) now σ2.

(** A dispatcher goroutine started by [go q.process()] runs. *)
Definition run_dispatcher (now : Z) (σ : state) : result state :=
  match dispatchers σ with
  | O => Ok σ
  | S n => process now (set_dispatchers n σ)
  end.
End Queue.

(** ** Runs of the queue *)

(** The calls that change the state.  [Poll] is split into its
    registration and the rounds of its [select]; [OpCancel] is the caller
    of a [Poll] cancelling its context; [OpProcess] is a dispatcher
    goroutine getting the mutex.  [Wait] and [Info] only read. *)
Inductive op :=
  | OpPush (task : tref)
  | OpPushAtOnce (tasks : list tref)
  | OpPoll (c : goerror) (agentID : Z) (f : FilterFn)
  | OpPollSelect (w : wref) (cs : poll_case)
  | OpCancel (w : wref) (e : error_value)
  | OpDone (id : string) (exitStatus : StatusValue)
  | OpError (id : string) (err : goerror)
  | OpErrorAtOnce (ids : list string) (err : goerror)
  | OpEvict (id : string)
  | OpEvictAtOnce (ids : list string)
  | OpExtend (now : Z) (id : string)
  | OpPause
  | OpResume
  | OpKickAgentWorkers (agentID : Z)
  | OpProcess (now : Z).

Section Runs.
Context {order : MapOrder}.

Definition exec (o : op) (σ : state) : result state :=
  match o with
  | OpPush task => Ok (Push task σ)
  | OpPushAtOnce tasks => Ok (PushAtOnce tasks σ)
  | OpPoll c agentID f => Ok (Poll_register c agentID f σ).2
  | OpPollSelect w cs =>
      match Poll_select w cs σ with
      | Some (σ', _) => Ok σ'
      | None => Ok σ
      end
  | OpCancel w e => Ok (cancel_context w e σ)
  | OpDone id exitStatus => r ← Done id exitStatus σ; Ok r.1
  | OpError id err => r ← Error id err σ; Ok r.1
  | OpErrorAtOnce ids err => r ← ErrorAtOnce ids err σ; Ok r.1
  | OpEvict id => Ok (Evict id σ).1
  | OpEvictAtOnce ids => Ok (EvictAtOnce ids σ).1
  | OpExtend now id => Ok (Extend now id σ).1
  | OpPause => Ok (Pause σ)
  | OpResume => Ok (Resume σ)
  | OpKickAgentWorkers agentID => Ok (KickAgentWorkers agentID σ)
  | OpProcess now => run_dispatcher now σ
  end.

Definition run (ops : list op) (σ : state) : result state :=
  for_each exec ops σ.
End Runs.

(** ** Observations and invariants *)

Definition pending_ids (σ : state) : list string :=
  task_id σ <$> pending (queue σ).
Definition waiting_ids (σ : state) : list string :=
  task_id σ <$> waitingOnDeps (queue σ).
Definition running_ids (σ : state) : gset string := dom (running (queue σ)).

(** No task id is in more than one of pending, waitingOnDeps, running. *)
Definition exclusive (σ : state) : Prop :=
  ∀ id : string,
    ¬ (id ∈ pending_ids σ ∧ id ∈ waiting_ids σ) ∧
    ¬ (id ∈ pending_ids σ ∧ id ∈ running_ids σ) ∧
    ¬ (id ∈ waiting_ids σ ∧ id ∈ running_ids σ).

(** Every id is queued at most once. *)
Definition unique_ids (σ : state) : Prop :=
  NoDup (pending_ids σ ++ waiting_ids σ) ∧
  ∀ id, id ∈ (pending_ids σ ++ waiting_ids σ) → running (queue σ) !! id = None.

(** What holds of the memory in every state the queue gets into: a lease
    in [running] is an allocated entry, not yet closed, without error,
    filed under the id of its task; no entry is filed twice; a registered
    worker is allocated and its channel is empty. *)
Record wf (σ : state) : Prop := {
  wf_entry id e :
    running (queue σ) !! id = Some e →
    e ∈ dom (entries σ) ∧ Entry.done (entry_at σ e) = Open ∧
    Entry.error (entry_at σ e) = None ∧
    task_id σ (Entry.item (entry_at σ e)) = id;
  wf_inj id1 id2 e :
    running (queue σ) !! id1 = Some e → running (queue σ) !! id2 = Some e →
    id1 = id2;
  wf_worker w :
    w ∈ workers (queue σ) →
    w ∈ dom (wheap σ) ∧ Worker.channel (worker_at σ w) = None;
}.

(** The tasks the queue holds: in pending, in waitingOnDeps, or leased. *)
Definition queued (σ : state) (p : tref) : Prop :=
  p ∈ pending (queue σ) ∨ p ∈ waitingOnDeps (queue σ) ∨
  ∃ id e, running (queue σ) !! id = Some e ∧ Entry.item (entry_at σ e) = p.

(** A push is fresh when the ids it brings are not in the queue, and are
    not brought twice. *)
Definition op_fresh (o : op) (σ : state) : Prop :=
  match o with
  | OpPush task =>
      (task_id σ task ∉ pending_ids σ ++ waiting_ids σ) ∧
      (task_id σ task ∉ running_ids σ)
  | OpPushAtOnce tasks =>
      NoDup (task_id σ <$> tasks) ∧
      Forall (λ id, (id ∉ pending_ids σ ++ waiting_ids σ) ∧
                    (id ∉ running_ids σ))
             (task_id σ <$> tasks)
  | _ => True
  end.

#[global] Instance op_fresh_dec o σ : Decision (op_fresh o σ).
Proof. destruct o; simpl; apply _. Defined.

Section Fresh.
Context {order : MapOrder}.

(** A run all of whose pushes are fresh at the time they happen. *)
Fixpoint fresh_pushes (ops : list op) (σ : state) : Prop :=
  match ops with
  | [] => True
  | o :: ops' =>
      op_fresh o σ ∧
      match exec o σ with
      | Ok σ' => fresh_pushes ops' σ'
      | _ => True
      end
  end.

#[global] Instance fresh_pushes_dec ops σ : Decision (fresh_pushes ops σ).
Proof.
  revert σ. induction ops as [|o ops IH]; intros σ; simpl; [apply _|].
  destruct (exec o σ); apply _.
Defined.
End Fresh.

(** What [updateDepStatusInQueue] makes of a task that it visits. *)
Definition dep_written (id : string) (status : StatusValue) (t : Task) : Task :=
  if bool_decide (id ∈ Dependencies t) then set_DepStatus id status t else t.

(** Two states that differ at most in the contents of the tasks. *)
Definition same_but_tasks (σ σ' : state) : Prop :=
  queue σ' = queue σ ∧ entries σ' = entries σ ∧ wheap σ' = wheap σ ∧
  dispatchers σ' = dispatchers σ.

(** The tasks of the leases [l]. *)
Definition leased_items (σ : state) (l : list (string * eref)) : list tref :=
  (λ kv, Entry.item (entry_at σ kv.2)) <$> l.

(** The finish procedure in the words of the specification, to compare
    [finished] with.  One id, between the state [σ] before and [σ'] after:
    first the removal. *)
Record spec_removed (err : goerror) (id : string) (σ σ' : state) : Prop := {
  (* the id is running: error set, done closed, entry out of running *)
  rm_running e :
    running (queue σ) !! id = Some e →
    Entry.error (entry_at σ' e) = err ∧
    Entry.done (entry_at σ' e) = Closed ∧
    Entry.item (entry_at σ' e) = Entry.item (entry_at σ e) ∧
    Entry.deadline (entry_at σ' e) = Entry.deadline (entry_at σ e) ∧
    running (queue σ') = delete id (running (queue σ)) ∧
    pending (queue σ') = pending (queue σ);
  (* not running but pending: its first occurrence leaves pending *)
  rm_pending :
    running (queue σ) !! id = None → id ∈ pending_ids σ →
    ∃ l1 p l2,
      pending (queue σ) = l1 ++ p :: l2 ∧ task_id σ p = id ∧
      (id ∉ task_id σ <$> l1) ∧
      pending (queue σ') = l1 ++ l2 ∧
      running (queue σ') = running (queue σ);
  (* in neither: nothing is removed *)
  rm_unknown :
    running (queue σ) !! id = None → id ∉ pending_ids σ →
    pending (queue σ') = pending (queue σ) ∧
    running (queue σ') = running (queue σ);
  (* the rest of the queue and of the memory stays *)
  rm_waiting : waitingOnDeps (queue σ') = waitingOnDeps (queue σ);
  rm_workers :
    workers (queue σ') = workers (queue σ) ∧ wheap σ' = wheap σ ∧
    paused (queue σ') = paused (queue σ) ∧
    extension (queue σ') = extension (queue σ);
  rm_entries e :
    running (queue σ) !! id ≠ Some e → entry_at σ' e = entry_at σ e;
}.

(** Then the propagation: the status reaches every task still queued that
    lists the id, and that is the only change to the tasks. *)
Record spec_propagated (exitStatus : StatusValue) (id : string) (σ σ' : state)
    : Prop := {
  pr_dependents p :
    queued σ' p → id ∈ Dependencies (task_at σ p) →
    DepStatus (task_at σ' p) !! id = Some exitStatus;
  pr_tasks p :
    (queued σ' p → task_at σ' p = dep_written id exitStatus (task_at σ p)) ∧
    (¬ queued σ' p → task_at σ' p = task_at σ p);
}.

Definition spec_finished_step (exitStatus : StatusValue) (err : goerror)
    (id : string) (σ σ' : state) : Prop :=
  spec_removed err id σ σ' ∧ spec_propagated exitStatus id σ σ'.

(** The ids of one call are handled one after the other. *)
Inductive spec_finished_run (exitStatus : StatusValue) (err : goerror)
    : list string → state → state → Prop :=
  | spec_finished_nil σ : spec_finished_run exitStatus err [] σ σ
  | spec_finished_cons id ids σ σ1 σ' :
      spec_finished_step exitStatus err id σ σ1 →
      spec_finished_run exitStatus err ids σ1 σ' →
      spec_finished_run exitStatus err (id :: ids) σ σ'.

(** The lease [kv] has run out at time [now]. *)
Definition expired (now : Z) (σ : state) (kv : string * eref) : Prop :=
  (Entry.deadline (entry_at σ kv.2) < now)%Z.

#[global] Instance expired_dec now σ kv : Decision (expired now σ kv).
Proof. unfold expired. apply _. Defined.

(** ** Concrete scenarios *)

Definition accept_all : FilterFn := λ _, true.

(** Task A has no dependency, B depends on A, S lists itself. *)
Definition task_A : Task := mkTask "A" ∅ [] ∅ 0.
Definition task_B : Task := mkTask "B" ∅ ["A"%string] ∅ 0.
Definition task_S : Task := mkTask "S" ∅ ["S"%string] ∅ 0.

Definition memory : gmap tref Task :=
  <[1 := task_A]> (<[2 := task_B]> (<[3 := task_S]> ∅)).

Definition boom : goerror := Some (ErrOther "boom").

Definition state_of (r : result state) : state :=
  match r with
  | Ok σ => σ
  | _ => init ∅
  end.

Definition scenario (ops : list op) : state :=
  state_of (run (order := canonical_order) ops (init memory)).

(** A and B pushed, A leased to agent 7 at time 0, B held back. *)
Definition leased_ops : list op :=
  [OpPush 1; OpPush 2; OpPoll None 7 accept_all; OpProcess 0].
Definition leased : state := scenario leased_ops.

(** The same with the queue paused afterwards. *)
Definition leased_paused : state := scenario (leased_ops ++ [OpPause]).

(** A pushed twice, one worker. *)
Definition pushed_twice_ops : list op :=
  [OpPush 1; OpPush 1; OpPoll None 7 accept_all; OpProcess 0].

(** Only the self-dependent task pushed. *)
Definition self_dependent : state := scenario [OpPush 3].

(** B and A pending, in this order. *)
Definition two_pending : state := scenario [OpPush 2; OpPush 1].

(** A worker of agent 7 waiting, nothing pushed. *)
Definition polling : state := scenario [OpPoll None 7 accept_all].

(** A and B pushed, A leased and done, B leased in turn. *)
Definition chain_ops : list op :=
  leased_ops ++ [OpDone "A" "success"; OpPoll None 8 accept_all; OpProcess 5].


(** A and B pushed and a worker of agent 7 registered; no pass has run. *)
Definition ready_ops : list op :=
  [OpPush 1; OpPush 2; OpPoll None 7 accept_all].
Definition ready : state := scenario ready_ops.

(** ** What a pass keeps *)

(** The ids the queue holds: those of pending and waitingOnDeps and the
    keys of running. *)
Definition queued_ids (σ : state) : gset string :=
  list_to_set (pending_ids σ) ∪ list_to_set (waiting_ids σ) ∪ running_ids σ.

(** The tasks the queue holds, with repetitions: pending, waitingOnDeps
    and the items of the leases. *)
Definition queued_items (σ : state) : list tref :=
  pending (queue σ) ++ waitingOnDeps (queue σ)
  ++ leased_items σ (map_to_list (running (queue σ))).

(** What the loop of [process] keeps of the gating, from the state [σ2]
    that [filterWaiting] left to the state [σk] after some rounds. *)
Definition gating_inv (σ2 σk : state) : Prop :=
  queued_ids σk = queued_ids σ2 ∧
  waitingOnDeps (queue σk) = waitingOnDeps (queue σ2) ∧
  (∀ p, Dependencies (task_at σk p) = Dependencies (task_at σ2 p)) ∧
  (∀ t, t ∈ pending (queue σk) → t ∈ pending (queue σ2)) ∧
  (∀ id e, running (queue σk) !! id = Some e →
           running (queue σ2) !! id = Some e ∨
           Entry.item (entry_at σk e) ∈ pending (queue σ2)).



(** What the loop of [process] keeps of the tasks held. *)
Definition items_inv (σ2 σk : state) : Prop :=
  unique_ids σk ∧ queued_items σk ≡ₚ queued_items σ2.

(** The number of [go q.process()] statements a call runs through: one in
    [Push], [PushAtOnce], [Poll] and [Resume], none in the other methods. *)
Definition spawns (o : op) : nat :=
  match o with
  | OpPush _ | OpPushAtOnce _ | OpPoll _ _ _ | OpResume => 1
  | _ => 0
  end.

(** * Properties *)

(** ** Enumerations and list removal *)

Section Basic.
Context {order : MapOrder}.

Lemma elem_of_range_running (m : gmap string eref) id e :
(id, e) ∈ range_running m ↔ m !! id = Some e.
Proof. rewrite range_running_perm. apply elem_of_map_to_list. Qed.

Lemma elem_of_range_workers (s : gset wref) w :
w ∈ range_workers s ↔ w ∈ s.
Proof. rewrite range_workers_perm. apply elem_of_elements. Qed.

Lemma NoDup_range_running (m : gmap string eref) :
NoDup (range_running m).*1.
Proof. rewrite range_running_perm. apply NoDup_fst_map_to_list. Qed.

Lemma existsb_elem_of {A} (f : A → bool) (l : list A) :
existsb f l = true ↔ ∃ x, x ∈ l ∧ f x = true.
Proof.
rewrite existsb_exists. split; intros (x & Hx & Hf); exists x; split; auto;
  by apply list_elem_of_In.
Qed.

Lemma filter_ext_in {A} (P Q : A → Prop) `{!∀ x, Decision (P x)}
    `{!∀ x, Decision (Q x)} (l : list A) :
  (∀ x, x ∈ l → P x ↔ Q x) → filter P l = filter Q l.
Proof.
  induction l as [|x l IH]; intros Hpq; [done|].
  rewrite !filter_cons.
  assert (filter P l = filter Q l) as ->
    by (apply IH; intros y Hy; apply Hpq; by right).
  assert (P x ↔ Q x) as Hx by (apply Hpq; left).
  destruct (decide (P x)) as [HP|HP], (decide (Q x)) as [HQ|HQ]; tauto.
Qed.

Lemma remove_first_Some σ id l l' :
remove_first σ id l = Some l' ↔
∃ l1 p l2, l = l1 ++ p :: l2 ∧ task_id σ p = id ∧
           (id ∉ task_id σ <$> l1) ∧ l' = l1 ++ l2.
Proof.
revert l'. induction l as [|q l IH]; intros l'; simpl.
- split; [done|]. intros (l1 & p & l2 & H & _). by destruct l1.
- case_bool_decide as Hq.
  + split.
    * intros [= <-]. exists [], q, l. repeat split; auto. set_solver.
    * intros (l1 & p & l2 & H & Hp & Hn & ->). destruct l1 as [|q' l1].
      -- simpl in *. by simplify_eq.
      -- simpl in *. simplify_eq. set_solver.
  + destruct (remove_first σ id l) as [r|] eqn:Hr; simpl.
    * split.
      -- intros [= <-]. destruct (proj1 (IH r) eq_refl) as (l1 & p & l2 & -> & Hp & Hn & ->).
         exists (q :: l1), p, l2. repeat split; auto. set_solver.
      -- intros (l1 & p & l2 & H & Hp & Hn & ->). destruct l1 as [|q' l1]; simpl in *; simplify_eq.
         f_equal. f_equal. assert (Some r = Some (l1 ++ l2)) as [=]; [|done].
         apply IH. exists l1, p, l2. repeat split; auto. set_solver.
    * split; [done|]. intros (l1 & p & l2 & H & Hp & Hn & ->).
      destruct l1 as [|q' l1]; simpl in *; simplify_eq.
      assert (None = Some (l1 ++ l2)); [|done].
      apply IH. exists l1, p, l2. repeat split; auto. set_solver.
Qed.

Lemma remove_first_None σ id l :
remove_first σ id l = None ↔ id ∉ task_id σ <$> l.
Proof.
induction l as [|q l IH]; simpl.
- split; [set_solver|done].
- case_bool_decide as Hq.
  + split; [done|]. set_solver.
  + destruct (remove_first σ id l); simpl.
    * split; [done|]. intros Hn. exfalso. assert (id ∉ task_id σ <$> l) as H by set_solver.
      apply IH in H. done.
    * split; [|done]. intros _. destruct IH as [IH _]. specialize (IH eq_refl). set_solver.
Qed.
End Basic.

(** ** The dispatcher while paused *)

Section Paused.
Context {order : MapOrder}.

(** C2, as the code has it: while [paused] is set a dispatcher pass
    returns at once and leaves the state as it is: no lease expires and no
    task is assigned. *)
Theorem process_paused (now : Z) (σ : state) :
  paused (queue σ) = true → process now σ = Ok σ.
Proof. intros H. unfold process. by rewrite H. Qed.
End Paused.

Lemma process_paused_witness :
  paused (queue leased_paused) = true ∧
  process (order := canonical_order) 700000000000 leased_paused
  = Ok leased_paused.
Proof. split; [reflexivity | apply process_paused; reflexivity]. Defined.

(** C2 fails as written: on the paused queue, where the lease of A ran
    out at time 600000000000, a pass at time 700000000000 leaves A in
    running and does not put it back into pending. *)
Lemma process_paused_no_expiry :
  paused (queue leased_paused) = true ∧
  running (queue leased_paused) !! "A" = Some 0%nat ∧
  (Entry.deadline (entry_at leased_paused 0%nat) < 700000000000)%Z ∧
  (σ ← process (order := canonical_order) 700000000000 leased_paused;
   Ok (running (queue σ) !! "A", pending (queue σ)))
  = Ok (Some 0%nat, []).
Proof. by vm_compute. Qed.

(** ** Dependency gating *)

Section Gating.
Context {order : MapOrder}.

(** C6, as the code has it: [depsInQueue] holds of a task exactly when
    one of its dependencies is the id of a task in pending (the task itself
    included) or a key of running. *)
Theorem depsInQueue_spec (σ : state) (task : tref) :
  depsInQueue σ task = true ↔
  ∃ dep, dep ∈ Dependencies (task_at σ task) ∧
         (dep ∈ pending_ids σ ∨ dep ∈ running_ids σ).
Proof.
  unfold depsInQueue, pending_ids, running_ids.
  rewrite orb_true_iff, !existsb_elem_of. split.
  - intros [(p & Hp & Hd) | ([id e] & Hkv & Hd)];
      apply existsb_elem_of in Hd as (dep & Hdep & Heq);
      apply bool_decide_eq_true in Heq; simpl in *; subst dep;
      eexists; (split; [exact Hdep|]).
    + left. apply list_elem_of_fmap. eauto.
    + right. apply elem_of_range_running in Hkv. apply elem_of_dom. eauto.
  - intros (dep & Hdep & [Hp | Hr]).
    + left. apply list_elem_of_fmap in Hp as (p & -> & Hp).
      exists p. split; [done|]. apply existsb_elem_of.
      exists (task_id σ p). split; [done|]. by apply bool_decide_eq_true.
    + right. apply elem_of_dom in Hr as [e He].
      exists (dep, e). split; [by apply elem_of_range_running|].
      apply existsb_elem_of. exists dep. split; [done|].
      by apply bool_decide_eq_true.
Qed.
End Gating.

(** C6 fails as written: the task S, whose only dependency is its own
    id, is alone in pending with nothing running; no other pending task and
    no running key matches, yet [depsInQueue] holds and the next pass moves
    S to waitingOnDeps. *)
Lemma depsInQueue_self_dependency :
  pending (queue self_dependent) = [3] ∧
  Dependencies (task_at self_dependent 3) = [task_id self_dependent 3] ∧
  running (queue self_dependent) = ∅ ∧
  depsInQueue (order := canonical_order) self_dependent 3 = true ∧
  waitingOnDeps (queue (filterWaiting (order := canonical_order) self_dependent))
  = [3] ∧
  ¬ ∃ dep, dep ∈ Dependencies (task_at self_dependent 3) ∧
           ((∃ p, p ∈ pending (queue self_dependent) ∧ p ≠ 3 ∧
                  task_id self_dependent p = dep) ∨
            dep ∈ running_ids self_dependent).
Proof.
  repeat split; try by vm_compute.
  intros (dep & _ & [(p & Hp & Hne & _) | Hr]).
  - change (pending (queue self_dependent)) with [3] in Hp.
    apply list_elem_of_singleton in Hp. done.
  - change (running_ids self_dependent) with (dom (∅ : gmap string eref)) in Hr.
    by rewrite dom_empty_L in Hr.
Qed.

(** ** Cancellation of Poll and Wait *)

(** C7, as the code has it.  When the caller of a blocked [Poll] cancels
    its context with error [e], the context of the worker is done with some
    error [e'] ([e] itself unless it was done before), and the [select]
    taking that case returns no task and [e'], with the worker removed from
    [workers]; the heaps and the rest of the queue stay.  A [Wait] whose
    context is done leaves the [select] through the empty case and returns
    nil. *)
Theorem cancellation (w : wref) (e : error_value) (σ : state)
    (en : eref) (σw : state) :
  let σ1 := cancel_context w e σ in
  (∃ e' σ',
      Worker.ctx_err (worker_at σ1 w) = Some e' ∧
      (Worker.ctx_err (worker_at σ w) = None → e' = e) ∧
      Poll_select w PollCtxDone σ1 = Some (σ', (None, Some e')) ∧
      (w ∉ workers (queue σ')) ∧
      workers (queue σ') = workers (queue σ) ∖ {[w]} ∧
      pending (queue σ') = pending (queue σ) ∧
      waitingOnDeps (queue σ') = waitingOnDeps (queue σ) ∧
      running (queue σ') = running (queue σ)) ∧
  Wait_select (Some e) en WaitCtxDone σw = Some None.
Proof.
  simpl. split; [|done].
  unfold Poll_select, cancel_context, worker_at, upd_worker. simpl.
  rewrite lookup_total_insert_eq. unfold Worker.cancel, worker_at.
  destruct (Worker.ctx_err (wheap σ !!! w)) as [e0|] eqn:He0; simpl.
  - rewrite He0. eexists _, _. repeat split; try done. set_solver.
  - eexists _, _. repeat split; try done. set_solver.
Qed.

(** C7 fails as written for [Wait]: a [Wait] blocked on the open lease of
    A whose context is cancelled returns nil, not the context's error. *)
Lemma wait_cancelled_returns_nil :
  Wait_lookup "A" leased = Some 0 ∧
  Entry.done (entry_at leased 0) = Open ∧
  Wait (Some ErrCanceled) "A" WaitCtxDone leased leased = Some None ∧
  Wait (Some ErrCanceled) "A" WaitCtxDone leased leased
  ≠ Some (Some ErrCanceled).
Proof. by vm_compute. Qed.

(** ** Eviction *)

Lemma EvictAtOnce_none ids σ :
  (∀ i, i ∈ ids → i ∉ pending_ids σ) →
  EvictAtOnce ids σ = (σ, Some ErrNotFound).
Proof.
  induction ids as [|i ids IH]; intros Hn; simpl; [done|].
  assert (remove_first σ i (pending (queue σ)) = None) as ->.
  { apply remove_first_None. apply Hn. set_solver. }
  apply IH. intros j Hj. apply Hn. set_solver.
Qed.

Lemma EvictAtOnce_first ids1 id ids2 l1 p l2 σ :
  (∀ i, i ∈ ids1 → i ∉ pending_ids σ) →
  pending (queue σ) = l1 ++ p :: l2 →
  task_id σ p = id →
  (id ∉ task_id σ <$> l1) →
  EvictAtOnce (ids1 ++ id :: ids2) σ
  = (upd_queue (set_pending (l1 ++ l2)) σ, None).
Proof.
  intros Hn Hp Hid Hl1. induction ids1 as [|i ids1 IH]; simpl.
  - assert (remove_first σ id (pending (queue σ)) = Some (l1 ++ l2)) as ->;
      [|done].
    apply remove_first_Some. by exists l1, p, l2.
  - assert (remove_first σ i (pending (queue σ)) = None) as ->.
    { apply remove_first_None. apply Hn. set_solver. }
    apply IH. intros j Hj. apply Hn. set_solver.
Qed.

Lemma EvictAtOnce_frame ids σ :
  running (queue (EvictAtOnce ids σ).1) = running (queue σ) ∧
  waitingOnDeps (queue (EvictAtOnce ids σ).1) = waitingOnDeps (queue σ) ∧
  workers (queue (EvictAtOnce ids σ).1) = workers (queue σ) ∧
  tasks (EvictAtOnce ids σ).1 = tasks σ ∧
  entries (EvictAtOnce ids σ).1 = entries σ ∧
  wheap (EvictAtOnce ids σ).1 = wheap σ.
Proof.
  induction ids as [|i ids IH]; simpl; [done|].
  destruct (remove_first σ i (pending (queue σ))); [done|apply IH].
Qed.

(** C8: [EvictAtOnce] tries the ids in order.  At the first id that some
    pending task carries, it removes the first such task and returns nil;
    the later ids are not tried.  When no id is carried by a pending task it
    returns [ErrNotFound] and changes nothing; so does [Evict] of an id that
    is not pending, wherever else it is.  Running, waitingOnDeps and the
    heaps are never changed. *)
Theorem EvictAtOnce_spec (ids : list string) (σ : state) :
  (∀ ids1 id ids2 l1 p l2,
      ids = ids1 ++ id :: ids2 →
      (∀ i, i ∈ ids1 → i ∉ pending_ids σ) →
      pending (queue σ) = l1 ++ p :: l2 →
      task_id σ p = id →
      (id ∉ task_id σ <$> l1) →
      EvictAtOnce ids σ = (upd_queue (set_pending (l1 ++ l2)) σ, None)) ∧
  ((∀ i, i ∈ ids → i ∉ pending_ids σ) →
   EvictAtOnce ids σ = (σ, Some ErrNotFound)) ∧
  (∀ id, id ∉ pending_ids σ → Evict id σ = (σ, Some ErrNotFound)) ∧
  running (queue (EvictAtOnce ids σ).1) = running (queue σ) ∧
  waitingOnDeps (queue (EvictAtOnce ids σ).1) = waitingOnDeps (queue σ) ∧
  workers (queue (EvictAtOnce ids σ).1) = workers (queue σ) ∧
  tasks (EvictAtOnce ids σ).1 = tasks σ ∧
  entries (EvictAtOnce ids σ).1 = entries σ.
Proof.
  split; [|split; [|split]].
  - intros ids1 id ids2 l1 p l2 -> Hn Hp Hid Hl1.
    by apply (EvictAtOnce_first ids1 id ids2 l1 p l2).
  - apply EvictAtOnce_none.
  - intros id Hid. apply (EvictAtOnce_none [id]). intros i Hi.
    apply list_elem_of_singleton in Hi. by subst.
  - destruct (EvictAtOnce_frame ids σ) as (? & ? & ? & ? & ? & ?). done.
Qed.

Lemma EvictAtOnce_spec_witness :
  EvictAtOnce ["C"; "A"; "B"] two_pending
  = (upd_queue (set_pending ([2] ++ [])) two_pending, None).
Proof.
  apply (proj1 (EvictAtOnce_spec ["C"; "A"; "B"] two_pending)
           ["C"] "A" ["B"] [2] 1 []); try reflexivity.
  - intros i Hi. apply list_elem_of_singleton in Hi. subst i.
    assert (pending_ids two_pending = ["B"; "A"]) as -> by reflexivity.
    intros [H | H]%elem_of_cons; [done|].
    by apply list_elem_of_singleton in H.
  - simpl. apply not_elem_of_cons. split; [done | apply not_elem_of_nil].
Defined.

(** ** Propagation of the outcome to the dependents *)

Lemma dep_written_idemp id st t :
  dep_written id st (dep_written id st t) = dep_written id st t.
Proof.
  unfold dep_written. destruct (decide (id ∈ Dependencies t)) as [H|H].
  - rewrite (bool_decide_true _ H). simpl. rewrite (bool_decide_true _ H).
    unfold set_DepStatus; simpl. by rewrite insert_insert_eq.
  - rewrite (bool_decide_false _ H). by rewrite (bool_decide_false _ H).
Qed.

Lemma dep_written_ID id st t : ID (dep_written id st t) = ID t.
Proof. unfold dep_written. by case_bool_decide. Qed.

Lemma dep_written_Dependencies id st t :
  Dependencies (dep_written id st t) = Dependencies t.
Proof. unfold dep_written. by case_bool_decide. Qed.

Lemma dep_written_lookup id st t :
  id ∈ Dependencies t → DepStatus (dep_written id st t) !! id = Some st.
Proof.
  intros H. unfold dep_written. rewrite bool_decide_true by done. simpl.
  apply lookup_insert_eq.
Qed.

Lemma same_but_tasks_refl σ : same_but_tasks σ σ.
Proof. by repeat split. Qed.

Lemma same_but_tasks_trans σ1 σ2 σ3 :
  same_but_tasks σ1 σ2 → same_but_tasks σ2 σ3 → same_but_tasks σ1 σ3.
Proof. intros (?&?&?&?) (?&?&?&?). repeat split; congruence. Qed.

Lemma task_at_upd_task σ p f p' :
  task_at (upd_task p f σ) p' =
  if bool_decide (p' = p) then f (task_at σ p) else task_at σ p'.
Proof.
  unfold task_at, upd_task; simpl. case_bool_decide as H.
  - subst. apply lookup_total_insert_eq.
  - by apply lookup_total_insert_ne.
Qed.

(** The inner loop over a list of dependencies [l]. *)
Lemma updateDepStatus_loop id st p l σ :
  let σ' := foldl (λ σ dep, if bool_decide (id = dep)
                            then upd_task p (set_DepStatus dep st) σ else σ) σ l in
  same_but_tasks σ σ' ∧
  ∀ p', task_at σ' p' =
        if bool_decide (p' = p ∧ id ∈ l)
        then set_DepStatus id st (task_at σ p) else task_at σ p'.
Proof.
  revert σ. induction l as [|dep l IH]; intros σ; simpl.
  - split; [apply same_but_tasks_refl|]. intros p'.
    rewrite bool_decide_false; [done|]. intros [_ H]. by apply elem_of_nil in H.
  - case_bool_decide as Hd.
    + subst dep. destruct (IH (upd_task p (set_DepStatus id st) σ)) as [Hs Ht].
      split.
      { eapply same_but_tasks_trans; [|exact Hs]. by repeat split. }
      intros p'. rewrite Ht, !task_at_upd_task.
      rewrite (bool_decide_true (p = p)) by done.
      destruct (decide (p' = p)) as [->|Hne].
      * rewrite (bool_decide_true (p = p ∧ id ∈ id :: l)) by (split; [done|left]).
        rewrite (bool_decide_true (p = p)) by done.
        case_bool_decide; [|done]. unfold set_DepStatus; simpl.
        by rewrite insert_insert_eq.
      * rewrite !bool_decide_false by tauto. done.
    + destruct (IH σ) as [Hs Ht]. split; [done|]. intros p'. rewrite Ht.
      rewrite (bool_decide_ext (p' = p ∧ id ∈ dep :: l) (p' = p ∧ id ∈ l));
        [done|].
      rewrite elem_of_cons. naive_solver.
Qed.

Lemma updateDepStatus_spec id st σ p :
  same_but_tasks σ (updateDepStatus id st σ p) ∧
  ∀ p', task_at (updateDepStatus id st σ p) p' =
        if bool_decide (p' = p) then dep_written id st (task_at σ p)
        else task_at σ p'.
Proof.
  destruct (updateDepStatus_loop id st p (Dependencies (task_at σ p)) σ)
    as [Hs Ht].
  split; [exact Hs|]. intros p'. unfold updateDepStatus. rewrite Ht.
  unfold dep_written. destruct (decide (p' = p)) as [->|Hne].
  - rewrite (bool_decide_true (p = p)) by done.
    destruct (decide (id ∈ Dependencies (task_at σ p))).
    + by rewrite !bool_decide_true.
    + rewrite !bool_decide_false; tauto.
  - rewrite !bool_decide_false; tauto.
Qed.

(** One of the three outer loops, over the task pointers [l]. *)
Lemma updateDepStatus_list id st l σ :
  same_but_tasks σ (foldl (updateDepStatus id st) σ l) ∧
  ∀ p', task_at (foldl (updateDepStatus id st) σ l) p' =
        if bool_decide (p' ∈ l) then dep_written id st (task_at σ p')
        else task_at σ p'.
Proof.
  revert σ. induction l as [|p l IH]; intros σ; simpl.
  - split; [apply same_but_tasks_refl|]. done.
  - destruct (updateDepStatus_spec id st σ p) as [Hs1 Ht1].
    destruct (IH (updateDepStatus id st σ p)) as [Hs2 Ht2].
    split; [by eapply same_but_tasks_trans|]. intros p'.
    rewrite Ht2, !Ht1. destruct (decide (p' = p)) as [->|Hne].
    + rewrite (bool_decide_true (p = p)) by done.
      rewrite (bool_decide_true (p ∈ p :: l)) by left.
      case_bool_decide; [apply dep_written_idemp|done].
    + rewrite (bool_decide_false (p' = p)) by done.
      rewrite (bool_decide_ext (p' ∈ p :: l) (p' ∈ l)); [done|].
      rewrite elem_of_cons. naive_solver.
Qed.

Lemma entry_at_same σ σ' e : entries σ' = entries σ → entry_at σ' e = entry_at σ e.
Proof. unfold entry_at. by intros ->. Qed.

Lemma worker_at_same σ σ' w : wheap σ' = wheap σ → worker_at σ' w = worker_at σ w.
Proof. unfold worker_at. by intros ->. Qed.

Lemma task_at_same σ σ' p : tasks σ' = tasks σ → task_at σ' p = task_at σ p.
Proof. unfold task_at. by intros ->. Qed.

Section DepStatus.
Context {order : MapOrder}.

Lemma queued_leased_items σ p :
  queued σ p ↔
  p ∈ pending (queue σ) ∨ p ∈ waitingOnDeps (queue σ) ∨
  p ∈ leased_items σ (range_running (running (queue σ))).
Proof.
  unfold queued, leased_items. rewrite list_elem_of_fmap.
  split; (intros [H | [H | H]]; [by left | by right; left | right; right]).
  - destruct H as (id & e & He & <-). exists (id, e).
    split; [done | by apply elem_of_range_running].
  - destruct H as ([id e] & -> & He). exists id, e.
    split; [by apply elem_of_range_running | done].
Qed.

Lemma updateDepStatus_leases id st l σ :
  foldl (λ σ kv, updateDepStatus id st σ (Entry.item (entry_at σ kv.2))) σ l
  = foldl (updateDepStatus id st) σ (leased_items σ l).
Proof.
  revert σ. induction l as [|kv l IH]; intros σ; simpl; [done|].
  rewrite IH. f_equal. unfold leased_items. apply list_fmap_ext.
  intros _ kv' _.
  destruct (updateDepStatus_spec id st σ (Entry.item (entry_at σ kv.2)))
    as [(_ & He & _) _].
  by rewrite (entry_at_same _ _ _ He).
Qed.

(** [updateDepStatusInQueue] writes the status into the tasks the queue
    holds that list the id, and changes nothing else. *)
Lemma updateDepStatusInQueue_spec id st σ :
  same_but_tasks σ (updateDepStatusInQueue id st σ) ∧
  ∀ p, (queued σ p →
        task_at (updateDepStatusInQueue id st σ) p
        = dep_written id st (task_at σ p)) ∧
       (¬ queued σ p →
        task_at (updateDepStatusInQueue id st σ) p = task_at σ p).
Proof.
  unfold updateDepStatusInQueue.
  set (σ1 := foldl (updateDepStatus id st) σ (pending (queue σ))).
  destruct (updateDepStatus_list id st (pending (queue σ)) σ) as [Hs1 Ht1].
  fold σ1 in Hs1, Ht1. simpl. rewrite updateDepStatus_leases.
  set (l2 := leased_items σ1 (range_running (running (queue σ1)))).
  set (σ2 := foldl (updateDepStatus id st) σ1 l2).
  destruct (updateDepStatus_list id st l2 σ1) as [Hs2 Ht2].
  fold σ2 in Hs2, Ht2.
  destruct (updateDepStatus_list id st (waitingOnDeps (queue σ2)) σ2)
    as [Hs3 Ht3].
  split.
  { eapply same_but_tasks_trans; [|exact Hs3].
    eapply same_but_tasks_trans; [exact Hs1|exact Hs2]. }
  assert (Hl2 : l2 = leased_items σ (range_running (running (queue σ)))).
  { unfold l2, leased_items. destruct Hs1 as (-> & He & _).
    apply list_fmap_ext. intros _ kv _. by rewrite (entry_at_same _ _ _ He). }
  assert (Hw : waitingOnDeps (queue σ2) = waitingOnDeps (queue σ)).
  { destruct Hs1 as (Hq1 & _), Hs2 as (Hq2 & _). by rewrite Hq2, Hq1. }
  intros p. rewrite queued_leased_items, <- Hl2, <- Hw.
  rewrite Ht3, Ht2, Ht1.
  split.
  - intros Hq. repeat case_bool_decide; rewrite ?dep_written_idemp; try done.
    tauto.
  - intros Hq. rewrite !bool_decide_false by tauto. done.
Qed.

Lemma updateDepStatusInQueue_task_id id st σ p :
  task_id (updateDepStatusInQueue id st σ) p = task_id σ p.
Proof.
  destruct (updateDepStatusInQueue_spec id st σ) as [_ H].
  destruct (H p) as [H1 H2]. unfold task_id.
  destruct (decide (p ∈ pending (queue σ) ∨ p ∈ waitingOnDeps (queue σ) ∨
                    p ∈ leased_items σ (range_running (running (queue σ)))))
    as [Hq|Hq]; rewrite <- queued_leased_items in Hq.
  - rewrite (H1 Hq). apply dep_written_ID.
  - by rewrite (H2 Hq).
Qed.
End DepStatus.

(** ** The memory invariant *)

Lemma entry_at_upd_entry σ e f e' :
  entry_at (upd_entry e f σ) e' =
  if bool_decide (e' = e) then f (entry_at σ e) else entry_at σ e'.
Proof.
  unfold entry_at, upd_entry; simpl. case_bool_decide as H.
  - subst. apply lookup_total_insert_eq.
  - by apply lookup_total_insert_ne.
Qed.

Lemma worker_at_upd_worker σ w f w' :
  worker_at (upd_worker w f σ) w' =
  if bool_decide (w' = w) then f (worker_at σ w) else worker_at σ w'.
Proof.
  unfold worker_at, upd_worker; simpl. case_bool_decide as H.
  - subst. apply lookup_total_insert_eq.
  - by apply lookup_total_insert_ne.
Qed.

Lemma worker_at_upd_queue σ f w : worker_at (upd_queue f σ) w = worker_at σ w.
Proof. done. Qed.

Lemma entry_at_upd_queue σ f e : entry_at (upd_queue f σ) e = entry_at σ e.
Proof. done. Qed.

Lemma dom_upd_entry σ e f e' :
  e' ∈ dom (entries σ) → e' ∈ dom (entries (upd_entry e f σ)).
Proof. unfold upd_entry; simpl. rewrite dom_insert_L. set_solver. Qed.

Lemma dom_upd_worker σ w f w' :
  w' ∈ dom (wheap σ) → w' ∈ dom (wheap (upd_worker w f σ)).
Proof. unfold upd_worker; simpl. rewrite dom_insert_L. set_solver. Qed.

Lemma close_done_open σ e :
  Entry.done (entry_at σ e) = Open →
  close_done e σ = Ok (upd_entry e (Entry.set_done Closed) σ).
Proof. unfold close_done. by intros ->. Qed.

Lemma wf_init th : wf (init th).
Proof.
  split; simpl.
  - intros id e H. by rewrite lookup_empty in H.
  - intros id1 id2 e H. by rewrite lookup_empty in H.
  - intros w H. by apply not_elem_of_empty in H.
Qed.

(** A step that files no new lease and registers no new worker, and
    leaves the leases and workers that remain as they were, keeps the
    invariant. *)
Lemma wf_shrink σ σ' :
  wf σ →
  (∀ id e, running (queue σ') !! id = Some e →
           running (queue σ) !! id = Some e ∧ e ∈ dom (entries σ') ∧
           Entry.done (entry_at σ' e) = Entry.done (entry_at σ e) ∧
           Entry.error (entry_at σ' e) = Entry.error (entry_at σ e) ∧
           Entry.item (entry_at σ' e) = Entry.item (entry_at σ e)) →
  (∀ w, w ∈ workers (queue σ') →
        w ∈ workers (queue σ) ∧ w ∈ dom (wheap σ') ∧
        Worker.channel (worker_at σ' w) = Worker.channel (worker_at σ w)) →
  (∀ p, task_id σ' p = task_id σ p) →
  wf σ'.
Proof.
  intros [He Hi Hw] Hr Hws Hid. split.
  - intros id e H. destruct (Hr _ _ H) as (H0 & Hd & -> & -> & ->).
    destruct (He _ _ H0) as (_ & ? & ? & ?). by rewrite Hid.
  - intros id1 id2 e H1 H2. apply Hr in H1 as [H1 _], H2 as [H2 _]. eauto.
  - intros w H. destruct (Hws _ H) as (H0 & Hd & ->).
    destruct (Hw _ H0) as [_ ?]. done.
Qed.

(** In particular a step that touches neither [running], [workers], the
    entries, the workers' cells nor the ids of the tasks. *)
Lemma wf_ext σ σ' :
  running (queue σ') = running (queue σ) →
  workers (queue σ') = workers (queue σ) →
  entries σ' = entries σ → wheap σ' = wheap σ →
  (∀ p, task_id σ' p = task_id σ p) →
  wf σ → wf σ'.
Proof.
  intros Hr Hw He Hh Hid Hwf. apply (wf_shrink σ σ' Hwf); [| |done].
  - intros id e H. rewrite Hr in H. rewrite (entry_at_same _ _ _ He), He.
    destruct (wf_entry _ Hwf _ _ H) as (? & _). done.
  - intros w H. rewrite Hw in H. rewrite (worker_at_same _ _ _ Hh), Hh.
    destruct (wf_worker _ Hwf _ H) as (? & _). done.
Qed.

(** A lease ends: the key is deleted and the entry rewritten. *)
Lemma wf_release σ σ' id e x :
  wf σ → running (queue σ) !! id = Some e →
  running (queue σ') = delete id (running (queue σ)) →
  entries σ' = <[e := x]> (entries σ) →
  workers (queue σ') = workers (queue σ) → wheap σ' = wheap σ →
  (∀ p, task_id σ' p = task_id σ p) →
  wf σ'.
Proof.
  intros Hwf Hid Hr He Hw Hh Ht. apply (wf_shrink σ σ' Hwf); [| |done].
  - intros id' e' H. rewrite Hr in H. apply lookup_delete_Some in H as [Hne H].
    assert (e' ≠ e) as Hee.
    { intros ->. apply Hne. by apply (wf_inj _ Hwf id id' e). }
    unfold entry_at. rewrite He, dom_insert_L, lookup_total_insert_ne by done.
    destruct (wf_entry _ Hwf _ _ H) as (? & _). repeat split; [done|set_solver].
  - intros w H. rewrite Hw in H. rewrite (worker_at_same _ _ _ Hh), Hh.
    destruct (wf_worker _ Hwf _ H) as (? & _). done.
Qed.

(** ** The finish procedure *)

Lemma queued_same σ σ' p :
  queue σ' = queue σ → entries σ' = entries σ → queued σ' p ↔ queued σ p.
Proof.
  intros Hq He. unfold queued. rewrite Hq.
  by setoid_rewrite (entry_at_same σ σ' _ He).
Qed.

Lemma removeFromPending_frame id σ :
  running (queue (removeFromPending id σ)) = running (queue σ) ∧
  waitingOnDeps (queue (removeFromPending id σ)) = waitingOnDeps (queue σ) ∧
  workers (queue (removeFromPending id σ)) = workers (queue σ) ∧
  paused (queue (removeFromPending id σ)) = paused (queue σ) ∧
  extension (queue (removeFromPending id σ)) = extension (queue σ) ∧
  tasks (removeFromPending id σ) = tasks σ ∧
  entries (removeFromPending id σ) = entries σ ∧
  wheap (removeFromPending id σ) = wheap σ ∧
  dispatchers (removeFromPending id σ) = dispatchers σ.
Proof.
  unfold removeFromPending.
  by destruct (remove_first σ id (pending (queue σ))).
Qed.

Lemma removeFromPending_found id σ :
  id ∈ pending_ids σ →
  ∃ l1 p l2,
    pending (queue σ) = l1 ++ p :: l2 ∧ task_id σ p = id ∧
    (id ∉ task_id σ <$> l1) ∧
    pending (queue (removeFromPending id σ)) = l1 ++ l2.
Proof.
  intros Hin. unfold removeFromPending.
  destruct (remove_first σ id (pending (queue σ))) as [l|] eqn:Hr.
  - apply remove_first_Some in Hr as (l1 & p & l2 & H1 & H2 & H3 & ->).
    by exists l1, p, l2.
  - apply remove_first_None in Hr. done.
Qed.

Lemma removeFromPending_missing id σ :
  id ∉ pending_ids σ → removeFromPending id σ = σ.
Proof.
  intros Hin. unfold removeFromPending.
  by rewrite (proj2 (remove_first_None σ id (pending (queue σ))) Hin).
Qed.

Section Finished.
Context {order : MapOrder}.

(** The removal, followed by the propagation. *)
Lemma finished_step_propagate st err id σ σ1 :
  tasks σ1 = tasks σ →
  spec_removed err id σ σ1 →
  spec_finished_step st err id σ (updateDepStatusInQueue id st σ1).
Proof.
  intros Ht Hs.
  destruct (updateDepStatusInQueue_spec id st σ1) as [(Hq & He & Hw & Hd) Hu].
  assert (Hqd : ∀ p, queued (updateDepStatusInQueue id st σ1) p ↔ queued σ1 p)
    by (intros p; by apply queued_same).
  split; split.
  - intros e H. rewrite (entry_at_same _ _ _ He), Hq.
    by apply (rm_running _ _ _ _ Hs).
  - intros H1 H2. rewrite Hq. by apply (rm_pending _ _ _ _ Hs).
  - intros H1 H2. rewrite Hq. by apply (rm_unknown _ _ _ _ Hs).
  - rewrite Hq. apply (rm_waiting _ _ _ _ Hs).
  - rewrite Hq, Hw. apply (rm_workers _ _ _ _ Hs).
  - intros e H. rewrite (entry_at_same _ _ _ He).
    by apply (rm_entries _ _ _ _ Hs).
  - intros p Hp Hdep. apply Hqd in Hp. rewrite (proj1 (Hu p) Hp).
    rewrite (task_at_same _ _ _ Ht). by apply dep_written_lookup.
  - intros p. rewrite Hqd, <- (task_at_same _ _ _ Ht). apply Hu.
Qed.

(** An id that is not running: no channel is closed, so the step cannot
    panic, whatever the state. *)
Lemma finished_id_not_running st err id σ :
  running (queue σ) !! id = None →
  finished_id st err id σ
  = Ok (updateDepStatusInQueue id st (removeFromPending id σ)) ∧
  spec_finished_step st err id σ
    (updateDepStatusInQueue id st (removeFromPending id σ)).
Proof.
  intros Hr. split; [unfold finished_id; by rewrite Hr|].
  destruct (removeFromPending_frame id σ)
    as (H1 & H2 & H3 & H4 & H5 & H6 & H7 & H8 & H9).
  apply finished_step_propagate; [done|]. split.
  - intros e H. congruence.
  - intros _ Hin.
    destruct (removeFromPending_found id σ Hin) as (l1 & p & l2 & ? & ? & ? & ?).
    by exists l1, p, l2.
  - intros _ Hin. by rewrite (removeFromPending_missing id σ Hin).
  - done.
  - done.
  - intros e _. by apply entry_at_same.
Qed.

(** An id that is running, in a state that satisfies the invariant. *)
Lemma finished_id_running st err id e σ :
  wf σ → running (queue σ) !! id = Some e →
  let σ1 := upd_queue (λ q, set_running (delete id (running q)) q)
              (upd_entry e (Entry.set_done Closed)
                 (upd_entry e (Entry.set_error err) σ)) in
  finished_id st err id σ = Ok (updateDepStatusInQueue id st σ1) ∧
  spec_finished_step st err id σ (updateDepStatusInQueue id st σ1) ∧
  wf (updateDepStatusInQueue id st σ1).
Proof.
  intros Hwf Hr σ1. destruct (wf_entry _ Hwf _ _ Hr) as (Hdom & Hopen & Herr & Hid).
  assert (Hent : ∀ e', entry_at σ1 e' =
                       if bool_decide (e' = e)
                       then Entry.set_done Closed (Entry.set_error err (entry_at σ e))
                       else entry_at σ e').
  { intros e'. unfold σ1.
    etrans; [apply (entry_at_same (upd_entry e (Entry.set_done Closed)
                                     (upd_entry e (Entry.set_error err) σ)));
             done|].
    rewrite !entry_at_upd_entry. rewrite (bool_decide_true (e = e)) by done.
    by case_bool_decide. }
  split; [|split].
  - unfold finished_id. rewrite Hr. rewrite close_done_open; [done|].
    rewrite entry_at_upd_entry, bool_decide_true by done. done.
  - apply finished_step_propagate; [done|]. split; try done.
    + intros e' H. assert (e' = e) as -> by congruence.
      rewrite Hent, bool_decide_true by done. done.
    + intros H. congruence.
    + intros H. congruence.
    + intros e' H. assert (e' ≠ e) as Hne by congruence.
      by rewrite Hent, bool_decide_false.
  - destruct (updateDepStatusInQueue_spec id st σ1) as [(Hq & He & Hw & Hd) _].
    apply (wf_ext σ1); try done; try by rewrite Hq.
    { apply updateDepStatusInQueue_task_id. }
    apply (wf_release σ σ1 id e
             (Entry.set_done Closed (Entry.set_error err (entry_at σ e))) Hwf Hr);
      try done.
    unfold σ1, upd_queue, upd_entry, entry_at; simpl.
    rewrite lookup_total_insert_eq. by rewrite insert_insert_eq.
Qed.

(** One id, in a state that satisfies the invariant. *)
Lemma finished_id_ok st err id σ :
  wf σ →
  ∃ σ', finished_id st err id σ = Ok σ' ∧ spec_finished_step st err id σ σ' ∧ wf σ'.
Proof.
  intros Hwf. destruct (running (queue σ) !! id) as [e|] eqn:Hr.
  - destruct (finished_id_running st err id e σ Hwf Hr) as (H1 & H2 & H3). eauto.
  - destruct (finished_id_not_running st err id σ Hr) as (H1 & H2).
    eexists. split; [exact H1|]. split; [exact H2|].
    destruct (removeFromPending_frame id σ)
      as (R1 & R2 & R3 & R4 & R5 & R6 & R7 & R8 & R9).
    destruct (updateDepStatusInQueue_spec id st (removeFromPending id σ))
      as [(Hq & He & Hw & Hd) _].
    apply (wf_ext (removeFromPending id σ)); try done; try by rewrite Hq.
    { apply updateDepStatusInQueue_task_id. }
    apply (wf_ext σ); try done. intros p. unfold task_id. by rewrite (task_at_same _ _ _ R6).
Qed.

(** The whole call. *)
Lemma finished_ok ids st err σ :
  wf σ →
  ∃ σ', finished ids st err σ = Ok (σ', None) ∧ spec_finished_run st err ids σ σ' ∧
        wf σ'.
Proof.
  unfold finished. revert σ. induction ids as [|id ids IH]; intros σ Hwf; simpl.
  - exists σ. split; [done|]. split; [constructor | done].
  - destruct (finished_id_ok st err id σ Hwf) as (σ1 & -> & Hs & Hwf1). simpl.
    destruct (IH σ1 Hwf1) as (σ' & Hf & Hrun & Hwf').
    exists σ'. split; [exact Hf|]. split; [|done]. by econstructor.
Qed.
End Finished.

(** ** The lease expiry sweep *)

Section Sweep.
Context {order : MapOrder}.

(** The sweep over the leases [l], all of them in [running]. *)
Lemma resubmit_loop now l σ :
  wf σ → NoDup l.*1 →
  (∀ id e, (id, e) ∈ l → running (queue σ) !! id = Some e) →
  ∃ σ',
    for_each (resubmit_entry now) l σ = Ok σ' ∧ wf σ' ∧
    pending (queue σ')
    = reverse (leased_items σ (filter (expired now σ) l)) ++ pending (queue σ) ∧
    (∀ id e, (id, e) ∈ l → expired now σ (id, e) →
             running (queue σ') !! id = None ∧
             entry_at σ' e = Entry.set_done Closed (entry_at σ e)) ∧
    (∀ id, (∀ e, (id, e) ∈ l → ¬ expired now σ (id, e)) →
           running (queue σ') !! id = running (queue σ) !! id) ∧
    (∀ e, (∀ id, (id, e) ∈ l → ¬ expired now σ (id, e)) →
          entry_at σ' e = entry_at σ e) ∧
    waitingOnDeps (queue σ') = waitingOnDeps (queue σ) ∧
    workers (queue σ') = workers (queue σ) ∧
    paused (queue σ') = paused (queue σ) ∧
    extension (queue σ') = extension (queue σ) ∧
    tasks σ' = tasks σ ∧ wheap σ' = wheap σ ∧
    dispatchers σ' = dispatchers σ.
Proof.
  revert σ. induction l as [|[id e] l IH]; intros σ Hwf Hnd Hin.
  { exists σ. simpl. split; [done|]. split; [done|]. split; [done|].
    repeat split; try done;
      match goal with H : _ ∈ [] |- _ => by apply elem_of_nil in H end. }
  apply NoDup_cons in Hnd as [Hid Hnd]. simpl in Hid.
  assert (Hr : running (queue σ) !! id = Some e) by (apply Hin; left).
  assert (Hne : ∀ id' e', (id', e') ∈ l → id' ≠ id ∧ e' ≠ e).
  { intros id' e' H. assert (id' ≠ id) as Hn.
    { intros ->. apply Hid. apply list_elem_of_fmap. by exists (id, e'). }
    split; [done|]. intros ->. apply Hn.
    apply (wf_inj _ Hwf id' id e); [apply Hin; by right | done]. }
  destruct (wf_entry _ Hwf _ _ Hr) as (Hdom & Hopen & Herr & Htid).
  simpl. unfold resubmit_entry at 1.
  rewrite filter_cons. destruct (decide (expired now σ (id, e))) as [Hx|Hx].
  - rewrite bool_decide_true by exact Hx.
    set (σ0 := upd_queue (λ q, set_running (delete id (running q))
                  (set_pending (Entry.item (entry_at σ e) :: pending q) q)) σ).
    rewrite (close_done_open σ0 e) by exact Hopen. simpl.
    set (σ1 := upd_entry e (Entry.set_done Closed) σ0).
    assert (Hent : ∀ e', entry_at σ1 e' =
                         if bool_decide (e' = e)
                         then Entry.set_done Closed (entry_at σ e)
                         else entry_at σ e').
    { intros e'. unfold σ1. rewrite entry_at_upd_entry. done. }
    assert (Hwf1 : wf σ1).
    { apply (wf_release σ σ1 id e (Entry.set_done Closed (entry_at σ e)) Hwf Hr);
        done. }
    destruct (IH σ1 Hwf1 Hnd) as
      (σ' & Hrun & Hwf' & Hp & Hexp & Hkeep & Hents & Hw & Hws & Hpa & Hex & Ht
          & Hh & Hd).
    { intros id' e' H. destruct (Hne _ _ H) as [Hn _]. simpl.
      rewrite lookup_delete_ne by done. apply Hin. by right. }
    assert (Hxx : ∀ kv, kv ∈ l → expired now σ1 kv ↔ expired now σ kv).
    { intros [id' e'] H. unfold expired. simpl. rewrite Hent.
      destruct (Hne _ _ H) as [_ Hn]. by rewrite bool_decide_false. }
    assert (Hfl : filter (expired now σ1) l = filter (expired now σ) l).
    { apply filter_ext_in. intros kv Hkv. by apply Hxx. }
    assert (Hli : ∀ l', l' ⊆ l → leased_items σ1 l' = leased_items σ l').
    { intros l' Hsub. unfold leased_items. apply list_fmap_ext.
      intros i [id' e'] Hl'. simpl. rewrite Hent.
      apply list_elem_of_lookup_2 in Hl'. apply Hsub in Hl'.
      destruct (Hne _ _ Hl') as [_ Hn]. by rewrite bool_decide_false. }
    exists σ'. split; [exact Hrun|]. split; [exact Hwf'|].
    split; [|split; [|split; [|split]]].
    + rewrite Hp, Hfl, Hli. 2:{ intros kv Hkv. by apply list_elem_of_filter in Hkv as [_ ?]. }
      simpl. by rewrite reverse_cons, <- app_assoc.
    + intros id' e' H Hx'. apply elem_of_cons in H as [[= -> ->] | H].
      * split.
        -- rewrite Hkeep; [simpl; apply lookup_delete_eq|].
           intros e' H. destruct (Hne _ _ H) as [? _]. congruence.
        -- rewrite Hents; [by rewrite Hent, bool_decide_true|].
           intros id' H. destruct (Hne _ _ H) as [_ ?]. congruence.
      * destruct (Hne _ _ H) as [Hn1 Hn2].
        destruct (Hexp id' e' H) as [H1 H2]; [by apply (Hxx (id', e'))|].
        split; [done|]. by rewrite H2, Hent, bool_decide_false.
    + intros id' Hall. rewrite Hkeep.
      * simpl. apply lookup_delete_ne. intros ->. apply (Hall e); [left|done].
      * intros e' H Hx'. apply (Hall e'); [by right|]. by apply (Hxx (id', e')).
    + intros e' Hall. rewrite Hents.
      * rewrite Hent, bool_decide_false; [done|]. intros ->.
        apply (Hall id); [left|done].
      * intros id' H Hx'. apply (Hall id'); [by right|]. by apply (Hxx (id', e')).
    + done.
  - rewrite bool_decide_false by exact Hx. simpl.
    destruct (IH σ Hwf Hnd) as
      (σ' & Hrun & Hwf' & Hp & Hexp & Hkeep & Hents & Hrest).
    { intros id' e' H. apply Hin. by right. }
    exists σ'. split; [exact Hrun|]. split; [exact Hwf'|].
    split; [exact Hp|]. split; [|split; [|split]].
    + intros id' e' H Hx'. apply elem_of_cons in H as [[= -> ->] | H]; [done|].
      by apply Hexp.
    + intros id' Hall. apply Hkeep. intros e' H. apply Hall. by right.
    + intros e' Hall. apply Hents. intros id' H. apply Hall. by right.
    + done.
Qed.
End Sweep.

(** ** Matching tasks and workers *)

Lemma task_id_upd_task σ p f p' :
  (∀ t, ID (f t) = ID t) → task_id (upd_task p f σ) p' = task_id σ p'.
Proof.
  intros Hf. unfold task_id. rewrite task_at_upd_task.
  case_bool_decide; [subst; apply Hf | done].
Qed.

Section Matching.
Context {order : MapOrder}.

Lemma assignToWorker_from_Some σ k l i task w :
  assignToWorker_from σ k l = Some (i, task, w) →
  ∃ j, i = k + j ∧ l !! j = Some task ∧ w ∈ workers (queue σ) ∧
       Worker.filter (worker_at σ w) (task_at σ task) = true.
Proof.
  revert k. induction l as [|t l IH]; intros k; simpl; [done|].
  destruct (find _ _) as [w'|] eqn:Hf.
  - intros [= <- <- <-]. exists 0. split; [lia|]. split; [done|].
    apply find_some in Hf as [Hin Hw]. split; [|done].
    apply elem_of_range_workers. by apply list_elem_of_In.
  - intros H. apply IH in H as (j & -> & Hj & Hw). exists (S j).
    split; [lia|]. done.
Qed.

Lemma assignToWorker_Some σ i task w :
  assignToWorker σ = Some (i, task, w) →
  pending (queue σ) !! i = Some task ∧ w ∈ workers (queue σ) ∧
  Worker.filter (worker_at σ w) (task_at σ task) = true.
Proof.
  intros H. apply assignToWorker_from_Some in H as (j & -> & H). done.
Qed.

(** One round of the loop of [process] in a state that satisfies the
    invariant: the send does not block, and the task moves from [pending]
    to a fresh lease. *)
Lemma assign_ok now i task w σ :
  wf σ → pending (queue σ) !! i = Some task → w ∈ workers (queue σ) →
  ∃ σ',
    assign now i task w σ = Ok σ' ∧ wf σ' ∧
    pending (queue σ') = delete i (pending (queue σ)) ∧
    waitingOnDeps (queue σ') = waitingOnDeps (queue σ) ∧
    running (queue σ')
    = <[task_id σ task := fresh (dom (entries σ))]> (running (queue σ)) ∧
    workers (queue σ') = workers (queue σ) ∖ {[w]} ∧
    paused (queue σ') = paused (queue σ) ∧
    extension (queue σ') = extension (queue σ) ∧
    dispatchers σ' = dispatchers σ ∧
    Worker.channel (worker_at σ' w) = Some task ∧
    (∀ p, task_id σ' p = task_id σ p).
Proof.
  intros Hwf Hi Hw. destruct (wf_worker _ Hwf _ Hw) as [Hwd Hch].
  unfold assign.
  set (σ1 := upd_task task (set_AgentID (Worker.agentID (worker_at σ w))) σ).
  set (σ2 := upd_queue _ σ1).
  set (e := fresh (dom (entries σ2))).
  set (σ3 := set_entries _ σ2).
  set (σ4 := upd_queue _ σ3).
  unfold send_task.
  assert (worker_at σ4 w = worker_at σ w) as -> by done. rewrite Hch.
  set (σ5 := upd_worker w (Worker.set_channel (Some task)) σ4).
  assert (Hid : ∀ p, task_id σ5 p = task_id σ p).
  { intros p. apply (task_id_upd_task σ task _ p). done. }
  assert (Hfresh : e ∉ dom (entries σ)) by apply is_fresh.
  assert (Hent : ∀ e', entry_at σ5 e' =
                       if bool_decide (e' = e)
                       then Entry.mk task Open None (now + extension (queue σ))
                       else entry_at σ e').
  { intros e'. unfold entry_at; simpl. case_bool_decide as H.
    - subst e'. apply lookup_total_insert_eq.
    - by apply lookup_total_insert_ne. }
  assert (Hdom : dom (entries σ5) = {[e]} ∪ dom (entries σ))
    by apply dom_insert_L.
  assert (Hrun : running (queue σ5) = <[task_id σ task := e]> (running (queue σ))).
  { simpl. f_equal. apply (Hid task). }
  assert (Hchan : Worker.channel (worker_at σ5 w) = Some task).
  { unfold σ5. by rewrite worker_at_upd_worker, bool_decide_true. }
  assert (Hws : workers (queue σ5) = workers (queue σ) ∖ {[w]}) by done.
  assert (Hwh : ∀ w', w' ≠ w → worker_at σ5 w' = worker_at σ w').
  { intros w' Hne. unfold σ5. by rewrite worker_at_upd_worker, bool_decide_false. }
  assert (Hwd5 : dom (wheap σ5) = {[w]} ∪ dom (wheap σ)) by apply dom_insert_L.
  exists σ5. split; [done|].
  split; [|by repeat split].
  clearbody σ5 e. clear σ1 σ2 σ3 σ4. split.
  - intros id' e'. rewrite Hrun, Hent, Hdom, Hid. intros H.
    apply lookup_insert_Some in H as [[<- <-] | [Hne H]].
    + rewrite bool_decide_true by done. simpl.
      split; [set_solver|]. done.
    + destruct (wf_entry _ Hwf _ _ H) as (Hd & Ho & Herr & Hit).
      assert (e' ≠ e) by (intros ->; done).
      rewrite bool_decide_false by done.
      split; [set_solver|]. done.
  - intros id1 id2 e'. rewrite Hrun. intros H1 H2.
    apply lookup_insert_Some in H1 as [[<- <-] | [Hne1 H1]];
      apply lookup_insert_Some in H2 as [[<- Heq] | [Hne2 H2]]; try done.
    + exfalso. apply Hfresh. by destruct (wf_entry _ Hwf _ _ H2) as (? & _).
    + exfalso. subst e'. apply Hfresh.
      by destruct (wf_entry _ Hwf _ _ H1) as (? & _).
    + by apply (wf_inj _ Hwf id1 id2 e').
  - intros w'. rewrite Hws, Hwd5. intros [Hw' Hne]%elem_of_difference.
    assert (w' ≠ w) by set_solver.
    destruct (wf_worker _ Hwf _ Hw') as [Hd Hc].
    rewrite Hwh by done. split; [set_solver | done].
Qed.
End Matching.

(** ** Every id queued at most once *)

Lemma submseteq_NoDup {A} (l k : list A) : l ⊆+ k → NoDup k → NoDup l.
Proof.
  intros [k' Hk]%submseteq_Permutation. rewrite Hk.
  by intros [? _]%NoDup_app.
Qed.

Lemma unique_ids_exclusive σ : unique_ids σ → exclusive σ.
Proof.
  intros [Hnd Hrun] id. unfold running_ids. rewrite !elem_of_dom.
  apply NoDup_app in Hnd as (_ & Hdis & _).
  split; [|split].
  - intros [H1 H2]. by apply (Hdis id).
  - intros [H1 [e He]]. rewrite Hrun in He; [done|]. apply elem_of_app. by left.
  - intros [H1 [e He]]. rewrite Hrun in He; [done|]. apply elem_of_app. by right.
Qed.

Lemma unique_ids_init th : unique_ids (init th).
Proof. split; simpl; [constructor|]. intros id H. by apply elem_of_nil in H. Qed.

(** Taking ids out of the queue, or reordering them within pending and
    waitingOnDeps, keeps the ids unique. *)
Lemma unique_ids_shrink σ σ' :
  pending_ids σ' ++ waiting_ids σ' ⊆+ pending_ids σ ++ waiting_ids σ →
  (∀ id, running (queue σ) !! id = None → running (queue σ') !! id = None) →
  unique_ids σ → unique_ids σ'.
Proof.
  intros Hsub Hrun [Hnd Hr]. split.
  - by apply (submseteq_NoDup _ _ Hsub).
  - intros id Hid. apply Hrun, Hr. by apply (elem_of_submseteq _ _ _ Hid).
Qed.

Lemma pending_ids_same σ σ' :
  pending (queue σ') = pending (queue σ) →
  (∀ p, task_id σ' p = task_id σ p) → pending_ids σ' = pending_ids σ.
Proof.
  intros Hp Hid. unfold pending_ids. rewrite Hp.
  apply list_fmap_ext. intros _ p _. apply Hid.
Qed.

Lemma waiting_ids_same σ σ' :
  waitingOnDeps (queue σ') = waitingOnDeps (queue σ) →
  (∀ p, task_id σ' p = task_id σ p) → waiting_ids σ' = waiting_ids σ.
Proof.
  intros Hp Hid. unfold waiting_ids. rewrite Hp.
  apply list_fmap_ext. intros _ p _. apply Hid.
Qed.

Lemma ids_same σ σ' (l : list tref) :
  (∀ p, task_id σ' p = task_id σ p) → task_id σ' <$> l = task_id σ <$> l.
Proof. intros Hid. apply list_fmap_ext. intros _ p _. apply Hid. Qed.

(** A step that touches neither list, nor [running], nor the ids. *)
Lemma unique_ids_ext σ σ' :
  pending (queue σ') = pending (queue σ) →
  waitingOnDeps (queue σ') = waitingOnDeps (queue σ) →
  running (queue σ') = running (queue σ) →
  (∀ p, task_id σ' p = task_id σ p) →
  unique_ids σ → unique_ids σ'.
Proof.
  intros Hp Hw Hr Hid. apply unique_ids_shrink.
  - by rewrite (pending_ids_same _ _ Hp Hid), (waiting_ids_same _ _ Hw Hid).
  - intros id. by rewrite Hr.
Qed.

(** The task at position [i] of pending is leased. *)
Lemma unique_ids_assign σ σ' i task e :
  pending (queue σ) !! i = Some task →
  pending (queue σ') = delete i (pending (queue σ)) →
  waitingOnDeps (queue σ') = waitingOnDeps (queue σ) →
  running (queue σ') = <[task_id σ task := e]> (running (queue σ)) →
  (∀ p, task_id σ' p = task_id σ p) →
  unique_ids σ → unique_ids σ'.
Proof.
  intros Hi Hp Hw Hr Hid [Hnd Hrun].
  assert (Hpids : pending_ids σ' = delete i (pending_ids σ)).
  { unfold pending_ids. rewrite Hp, (ids_same _ _ _ Hid). apply list_fmap_delete. }
  assert (Hi' : pending_ids σ !! i = Some (task_id σ task)).
  { unfold pending_ids. by rewrite list_lookup_fmap, Hi. }
  rewrite <- (take_drop_middle _ _ _ Hi') in Hnd.
  rewrite <- app_assoc in Hnd. simpl in Hnd.
  apply NoDup_app in Hnd as (Hn1 & Hdis & Hn2).
  apply NoDup_cons in Hn2 as [Hnotin Hn2].
  assert (Hrest : pending_ids σ' ++ waiting_ids σ'
                  = take i (pending_ids σ)
                    ++ (drop (S i) (pending_ids σ) ++ waiting_ids σ)).
  { rewrite Hpids, delete_take_drop, (waiting_ids_same _ _ Hw Hid).
    by rewrite <- app_assoc. }
  split.
  - rewrite Hrest. apply NoDup_app. split; [done|]. split; [|done].
    intros x Hx Hx'. apply (Hdis x Hx). by right.
  - intros id Hin. rewrite Hr. rewrite Hrest in Hin.
    assert (id ≠ task_id σ task) as Hne.
    { intros ->. apply elem_of_app in Hin as [Hin | Hin]; [|done].
      apply (Hdis _ Hin). left. }
    rewrite lookup_insert_ne by done. apply Hrun.
    rewrite <- (take_drop_middle _ _ _ Hi'), <- app_assoc. simpl.
    rewrite elem_of_app, elem_of_cons. apply elem_of_app in Hin. tauto.
Qed.

Section Dispatch.
Context {order : MapOrder}.

(** The loop of [process] does not run out of fuel, neither blocks nor
    panics, and keeps the invariants. *)
Lemma assign_loop_ok fuel now σ :
  wf σ → length (pending (queue σ)) ≤ fuel →
  ∃ σ', assign_loop fuel now σ = Ok σ' ∧ wf σ' ∧
        (unique_ids σ → unique_ids σ').
Proof.
  revert σ. induction fuel as [|fuel IH]; intros σ Hwf Hlen.
  - simpl. destruct (assignToWorker σ) as [[[i task] w]|] eqn:Ha; [|eauto].
    apply assignToWorker_Some in Ha as [Hi _].
    apply lookup_lt_Some in Hi. lia.
  - simpl. destruct (assignToWorker σ) as [[[i task] w]|] eqn:Ha; [|eauto].
    apply assignToWorker_Some in Ha as (Hi & Hw & _).
    destruct (assign_ok now i task w σ Hwf Hi Hw)
      as (σ1 & -> & Hwf1 & Hp & Hwt & Hr & _ & _ & _ & _ & _ & Hid).
    simpl. destruct (IH σ1 Hwf1) as (σ' & Hrun & Hwf' & Hu).
    { rewrite Hp, length_delete by eauto. apply lookup_lt_Some in Hi. lia. }
    exists σ'. split; [done|]. split; [done|]. intros Hu0. apply Hu.
    by apply (unique_ids_assign σ σ1 i task _ Hi Hp Hwt Hr Hid).
Qed.

Lemma filterWaiting_frame σ :
  running (queue (filterWaiting σ)) = running (queue σ) ∧
  workers (queue (filterWaiting σ)) = workers (queue σ) ∧
  paused (queue (filterWaiting σ)) = paused (queue σ) ∧
  extension (queue (filterWaiting σ)) = extension (queue σ) ∧
  tasks (filterWaiting σ) = tasks σ ∧ entries (filterWaiting σ) = entries σ ∧
  wheap (filterWaiting σ) = wheap σ ∧
  dispatchers (filterWaiting σ) = dispatchers σ.
Proof. done. Qed.

Lemma filterWaiting_perm σ :
  pending (queue (filterWaiting σ)) ++ waitingOnDeps (queue (filterWaiting σ))
  ≡ₚ pending (queue σ) ++ waitingOnDeps (queue σ).
Proof.
  unfold filterWaiting; simpl.
  set (σ1 := upd_queue _ σ). set (l := pending (queue σ) ++ waitingOnDeps (queue σ)).
  rewrite (list_filter_iff (λ t, depsInQueue σ1 t = false)
             (λ t, ¬ depsInQueue σ1 t = true)).
  - rewrite Permutation_app_comm. apply filter_app_complement.
  - intros t. by destruct (depsInQueue σ1 t).
Qed.

Lemma filterWaiting_ok σ :
  (wf σ → wf (filterWaiting σ)) ∧ (unique_ids σ → unique_ids (filterWaiting σ)).
Proof.
  split.
  - by apply wf_ext.
  - apply unique_ids_shrink; [|done].
    apply Permutation_submseteq. unfold pending_ids, waiting_ids.
    rewrite <- !fmap_app.
    rewrite (ids_same σ (filterWaiting σ)) by done.
    by rewrite filterWaiting_perm.
Qed.
End Dispatch.

Section Pass.
Context {order : MapOrder}.

Lemma resubmit_ok now σ :
  wf σ →
  ∃ σ', resubmitExpiredPipelines now σ = Ok σ' ∧ wf σ' ∧
        (unique_ids σ → unique_ids σ').
Proof.
  intros Hwf. unfold resubmitExpiredPipelines.
  set (l := range_running (running (queue σ))).
  destruct (resubmit_loop now l σ Hwf) as
    (σ' & Hrun & Hwf' & Hp & Hexp & Hkeep & _ & Hw & _ & _ & _ & Ht & _).
  { apply NoDup_range_running. }
  { intros id e. apply elem_of_range_running. }
  exists σ'. split; [done|]. split; [done|]. intros [Hnd Hr].
  assert (Hid : ∀ p, task_id σ' p = task_id σ p).
  { intros p. unfold task_id. by rewrite (task_at_same _ _ _ Ht). }
  set (fl := filter (expired now σ) l) in *.
  assert (Hfl : task_id σ <$> leased_items σ fl = fl.*1).
  { unfold leased_items. rewrite <- list_fmap_compose. apply list_fmap_ext.
    intros i [id e] Hl. simpl. apply list_elem_of_lookup_2 in Hl.
    apply list_elem_of_filter in Hl as [_ Hl]. apply elem_of_range_running in Hl.
    by destruct (wf_entry _ Hwf _ _ Hl) as (_ & _ & _ & ?). }
  assert (Hpids : pending_ids σ' = reverse fl.*1 ++ pending_ids σ).
  { unfold pending_ids. rewrite Hp, fmap_app, (ids_same _ _ _ Hid).
    by rewrite <- Hfl, fmap_reverse, (ids_same _ _ _ Hid). }
  assert (Hwids : waiting_ids σ' = waiting_ids σ) by by apply waiting_ids_same.
  assert (Hkey : ∀ id, id ∈ fl.*1 → ∃ e, (id, e) ∈ l ∧ expired now σ (id, e)).
  { intros id ([id' e] & -> & H)%list_elem_of_fmap.
    apply list_elem_of_filter in H as [? ?]. eauto. }
  split.
  - rewrite Hpids, Hwids, <- app_assoc. apply NoDup_app. split; [|split; [|done]].
    + rewrite reverse_Permutation.
      apply (sublist_NoDup fl.*1 l.*1); [apply NoDup_range_running|].
      apply (fmap_sublist fst). apply sublist_filter.
    + intros id Hid1 Hid2. rewrite elem_of_reverse in Hid1.
      destruct (Hkey id Hid1) as (e & He & _).
      apply elem_of_range_running in He. by rewrite (Hr id Hid2) in He.
  - intros id. rewrite Hpids, Hwids, <- app_assoc.
    intros [Hid1 | Hid2]%elem_of_app.
    + rewrite elem_of_reverse in Hid1. destruct (Hkey id Hid1) as (e & He & Hx).
      by destruct (Hexp id e He Hx).
    + rewrite Hkeep; [by apply Hr|]. intros e He.
      apply elem_of_range_running in He. by rewrite (Hr id Hid2) in He.
Qed.

(** A dispatcher pass completes and keeps the invariants. *)
Lemma process_ok now σ :
  wf σ →
  ∃ σ', process now σ = Ok σ' ∧ wf σ' ∧ (unique_ids σ → unique_ids σ').
Proof.
  intros Hwf. unfold process. destruct (paused (queue σ)); [eauto|].
  destruct (resubmit_ok now σ Hwf) as (σ1 & -> & Hwf1 & Hu1). simpl.
  destruct (filterWaiting_ok σ1) as [Hwf2 Hu2].
  destruct (assign_loop_ok (length (pending (queue (filterWaiting σ1)))) now
              (filterWaiting σ1) (Hwf2 Hwf1)) as (σ' & Hrun & Hwf' & Hu3);
    [done|].
  exists σ'. split; [done|]. split; [done|]. auto.
Qed.

Lemma run_dispatcher_ok now σ :
  wf σ →
  ∃ σ', run_dispatcher now σ = Ok σ' ∧ wf σ' ∧ (unique_ids σ → unique_ids σ').
Proof.
  intros Hwf. unfold run_dispatcher. destruct (dispatchers σ) as [|n]; [eauto|].
  destruct (process_ok now (set_dispatchers n σ)) as (σ' & Hrun & Hwf' & Hu).
  { by apply (wf_ext σ). }
  exists σ'. split; [done|]. split; [done|]. intros Hu0. apply Hu.
  by apply (unique_ids_ext σ).
Qed.
End Pass.

(** ** Every call keeps the invariants *)

Lemma Worker_cancel_channel err cause w :
  Worker.channel (Worker.cancel err cause w) = Worker.channel w.
Proof. unfold Worker.cancel. by destruct (Worker.ctx_err w). Qed.

Lemma PushAtOnce_frame ts σ :
  pending (queue (PushAtOnce ts σ)) = pending (queue σ) ++ ts ∧
  waitingOnDeps (queue (PushAtOnce ts σ)) = waitingOnDeps (queue σ) ∧
  running (queue (PushAtOnce ts σ)) = running (queue σ) ∧
  workers (queue (PushAtOnce ts σ)) = workers (queue σ) ∧
  paused (queue (PushAtOnce ts σ)) = paused (queue σ) ∧
  extension (queue (PushAtOnce ts σ)) = extension (queue σ) ∧
  tasks (PushAtOnce ts σ) = tasks σ ∧ entries (PushAtOnce ts σ) = entries σ ∧
  wheap (PushAtOnce ts σ) = wheap σ.
Proof.
  unfold PushAtOnce. simpl. revert σ. induction ts as [|t ts IH]; intros σ; simpl.
  - by rewrite app_nil_r.
  - destruct (IH (upd_queue (λ q, set_pending (pending q ++ [t]) q) σ))
      as (-> & -> & -> & -> & -> & -> & -> & -> & ->).
    simpl. by rewrite <- app_assoc.
Qed.

Lemma unique_ids_push σ σ' ts :
  pending (queue σ') = pending (queue σ) ++ ts →
  waitingOnDeps (queue σ') = waitingOnDeps (queue σ) →
  running (queue σ') = running (queue σ) →
  (∀ p, task_id σ' p = task_id σ p) →
  NoDup (task_id σ <$> ts) →
  (∀ id, id ∈ task_id σ <$> ts →
         (id ∉ pending_ids σ ++ waiting_ids σ) ∧ (id ∉ running_ids σ)) →
  unique_ids σ → unique_ids σ'.
Proof.
  intros Hp Hw Hr Hid Hnd Hfresh [Hn Hrun].
  assert (Hpids : pending_ids σ' = pending_ids σ ++ (task_id σ <$> ts)).
  { unfold pending_ids. by rewrite Hp, (ids_same _ _ _ Hid), fmap_app. }
  rewrite <- (waiting_ids_same _ _ Hw Hid) in *.
  assert (Hperm : pending_ids σ' ++ waiting_ids σ'
                  ≡ₚ (task_id σ <$> ts) ++ (pending_ids σ ++ waiting_ids σ')).
  { rewrite Hpids, <- app_assoc.
    rewrite (Permutation_app_comm (pending_ids σ)), <- app_assoc.
    apply Permutation_app_head. apply Permutation_app_comm. }
  split.
  - rewrite Hperm. apply NoDup_app. split; [done|]. split; [|done].
    intros id H. by apply Hfresh.
  - intros id. rewrite Hperm, Hr. intros [H | H]%elem_of_app; [|by apply Hrun].
    apply Hfresh in H as [_ H]. by apply not_elem_of_dom.
Qed.

Lemma finished_step_task_id st err id σ σ' p :
  spec_finished_step st err id σ σ' → task_id σ' p = task_id σ p.
Proof.
  intros [_ Hp]. destruct (pr_tasks _ _ _ _ Hp p) as [H1 H2].
  unfold task_id. destruct (decide (queued σ' p)) as [Hq|Hq].
  - rewrite (H1 Hq). apply dep_written_ID.
  - by rewrite (H2 Hq).
Qed.

Lemma finished_step_unique st err id σ σ' :
  spec_finished_step st err id σ σ' → unique_ids σ → unique_ids σ'.
Proof.
  intros Hs. pose proof (λ p, finished_step_task_id st err id σ σ' p Hs) as Hid.
  destruct Hs as [Hrm _]. pose proof (rm_waiting _ _ _ _ Hrm) as Hw.
  destruct (running (queue σ) !! id) as [e|] eqn:Hr.
  - destruct (rm_running _ _ _ _ Hrm e Hr) as (_ & _ & _ & _ & Hrun & Hp).
    apply unique_ids_shrink.
    + by rewrite (pending_ids_same _ _ Hp Hid), (waiting_ids_same _ _ Hw Hid).
    + intros id'. rewrite Hrun. intros H. apply lookup_delete_None. by right.
  - destruct (decide (id ∈ pending_ids σ)) as [Hin|Hin].
    + destruct (rm_pending _ _ _ _ Hrm Hr Hin)
        as (l1 & p & l2 & Hp & _ & _ & Hp' & Hrun).
      apply unique_ids_shrink; [|intros id'; by rewrite Hrun].
      rewrite (waiting_ids_same _ _ Hw Hid). apply submseteq_app; [|done].
      unfold pending_ids. rewrite Hp', Hp, (ids_same _ _ _ Hid).
      apply sublist_submseteq. apply (fmap_sublist (task_id σ)).
      apply sublist_app; [done|]. by apply sublist_cons.
    + destruct (rm_unknown _ _ _ _ Hrm Hr Hin) as [Hp Hrun].
      by apply unique_ids_ext.
Qed.

Lemma finished_run_unique st err ids σ σ' :
  spec_finished_run st err ids σ σ' → unique_ids σ → unique_ids σ'.
Proof.
  induction 1 as [|id ids σ σ1 σ' Hs _ IH]; [done|].
  intros Hu. apply IH. by apply (finished_step_unique st err id σ).
Qed.

Lemma EvictAtOnce_sublist ids σ :
  pending (queue (EvictAtOnce ids σ).1) `sublist_of` pending (queue σ).
Proof.
  induction ids as [|id ids IH]; simpl; [done|].
  destruct (remove_first σ id (pending (queue σ))) as [l|] eqn:Hr; [|done].
  apply remove_first_Some in Hr as (l1 & p & l2 & -> & _ & _ & ->). simpl.
  apply sublist_app; [done|]. by apply sublist_cons.
Qed.

Lemma EvictAtOnce_ok ids σ :
  (wf σ → wf (EvictAtOnce ids σ).1) ∧
  (unique_ids σ → unique_ids (EvictAtOnce ids σ).1).
Proof.
  destruct (EvictAtOnce_frame ids σ) as (Hr & Hw & Hws & Ht & He & Hh).
  assert (Hid : ∀ p, task_id (EvictAtOnce ids σ).1 p = task_id σ p).
  { intros p. unfold task_id. by rewrite (task_at_same _ _ _ Ht). }
  split; [by apply (wf_ext σ)|].
  apply unique_ids_shrink; [|intros i; by rewrite Hr].
  rewrite (waiting_ids_same _ _ Hw Hid). apply submseteq_app; [|done].
  unfold pending_ids. rewrite (ids_same _ _ _ Hid).
  apply sublist_submseteq, (fmap_sublist (task_id σ)), EvictAtOnce_sublist.
Qed.

Section Calls.
Context {order : MapOrder}.

Lemma KickAgentWorkers_loop a l σ :
  let σ' := foldl (λ σ w,
                     if bool_decide (Worker.agentID (worker_at σ w) = a)
                     then upd_queue (λ q, set_workers (workers q ∖ {[w]}) q)
                            (upd_worker w (Worker.stop ErrWorkerKicked) σ)
                     else σ) σ l in
  pending (queue σ') = pending (queue σ) ∧
  waitingOnDeps (queue σ') = waitingOnDeps (queue σ) ∧
  running (queue σ') = running (queue σ) ∧
  workers (queue σ') ⊆ workers (queue σ) ∧
  tasks σ' = tasks σ ∧ entries σ' = entries σ ∧
  dom (wheap σ) ⊆ dom (wheap σ') ∧
  ∀ w, Worker.channel (worker_at σ' w) = Worker.channel (worker_at σ w).
Proof.
  revert σ. induction l as [|w l IH]; intros σ; simpl; [done|].
  case_bool_decide as Ha; [|apply IH].
  match goal with |- context [foldl _ ?s l] => destruct (IH s)
    as (-> & -> & -> & Hws & -> & -> & Hd & Hc) end.
  simpl in *. repeat split; try done.
  - set_solver.
  - rewrite dom_insert_L in Hd. set_solver.
  - intros w'. rewrite Hc, worker_at_upd_queue, worker_at_upd_worker.
    case_bool_decide; [|done]. subst. apply Worker_cancel_channel.
Qed.

Lemma exec_ok o σ :
  wf σ →
  ∃ σ', exec o σ = Ok σ' ∧ wf σ' ∧ (op_fresh o σ → unique_ids σ → unique_ids σ').
Proof.
  intros Hwf. destruct o; simpl.
  - (* Push *)
    eexists. split; [done|]. split; [by apply (wf_ext σ)|].
    intros [H1 H2]. apply (unique_ids_push σ _ [task]); try done.
    + simpl. apply NoDup_singleton.
    + simpl. intros id Hid. apply list_elem_of_singleton in Hid. by subst.
  - (* PushAtOnce *)
    destruct (PushAtOnce_frame tasks0 σ)
      as (Hp & Hw & Hr & Hws & _ & _ & Ht & He & Hh).
    assert (Hid : ∀ p, task_id (PushAtOnce tasks0 σ) p = task_id σ p).
    { intros p. unfold task_id. by rewrite (task_at_same _ _ _ Ht). }
    eexists. split; [done|]. split; [by apply (wf_ext σ)|].
    intros [H1 H2]. apply (unique_ids_push σ _ tasks0); try done.
    intros id Hin. by apply (proj1 (Forall_forall _ _) H2).
  - (* Poll *)
    eexists. split; [done|]. split; [|intros _; by apply unique_ids_ext].
    assert (Hfresh : fresh (dom (wheap σ)) ∉ dom (wheap σ)) by apply is_fresh.
    split; simpl; [apply Hwf..|].
    intros w Hw. unfold worker_at; simpl. rewrite dom_insert_L.
    apply elem_of_union in Hw as [->%elem_of_singleton | Hw].
    + rewrite lookup_total_insert_eq. split; [set_solver|done].
    + destruct (wf_worker _ Hwf _ Hw) as [Hd Hc].
      rewrite lookup_total_insert_ne by (intros <-; done).
      split; [set_solver|done].
  - (* one round of the select of Poll *)
    destruct (Poll_select w cs σ) as [[σ' r]|] eqn:Hs; [|eauto].
    exists σ'. split; [done|]. unfold Poll_select in Hs.
    destruct cs.
    + destruct (Worker.ctx_err (worker_at σ w)); [|done].
      injection Hs as <- <-. split; [|intros _; by apply unique_ids_ext].
      apply (wf_shrink σ _ Hwf); [| |done].
      * intros id' e' H. destruct (wf_entry _ Hwf _ _ H) as (? & _). done.
      * simpl. intros w' [Hw' _]%elem_of_difference.
        destruct (wf_worker _ Hwf _ Hw') as (? & _). done.
    + destruct (Worker.channel (worker_at σ w)); [|done].
      injection Hs as <- <-. split; [|intros _; by apply unique_ids_ext].
      apply (wf_shrink σ _ Hwf); [| |done].
      * intros id' e' H. destruct (wf_entry _ Hwf _ _ H) as (? & _). done.
      * simpl. intros w' Hw'. destruct (wf_worker _ Hwf _ Hw') as (Hd & Hc).
        split; [done|]. rewrite dom_insert_L, worker_at_upd_worker.
        split; [set_solver|]. case_bool_decide; [by subst|done].
  - (* the context of a Poll is cancelled *)
    eexists. split; [done|]. split; [|intros _; by apply unique_ids_ext].
    apply (wf_shrink σ _ Hwf); [| |done].
    + intros id' e' H. destruct (wf_entry _ Hwf _ _ H) as (? & _). done.
    + simpl. intros w' Hw'. destruct (wf_worker _ Hwf _ Hw') as (Hd & Hc).
      split; [done|]. unfold cancel_context.
      rewrite dom_insert_L, worker_at_upd_worker.
      split; [set_solver|]. case_bool_decide; [|done].
      subst. apply Worker_cancel_channel.
  - (* Done *)
    destruct (finished_ok [id] exitStatus None σ Hwf) as (σ' & Hf & Hrun & Hwf').
    unfold Done. rewrite Hf. simpl. exists σ'. split; [done|]. split; [done|].
    intros _. by apply (finished_run_unique _ _ _ _ _ Hrun).
  - (* Error *)
    destruct (finished_ok [id] StatusFailure err σ Hwf) as (σ' & Hf & Hrun & Hwf').
    unfold Error. rewrite Hf. simpl. exists σ'. split; [done|]. split; [done|].
    intros _. by apply (finished_run_unique _ _ _ _ _ Hrun).
  - (* ErrorAtOnce *)
    destruct (finished_ok ids StatusFailure err σ Hwf) as (σ' & Hf & Hrun & Hwf').
    unfold ErrorAtOnce. rewrite Hf. simpl. exists σ'. split; [done|].
    split; [done|]. intros _. by apply (finished_run_unique _ _ _ _ _ Hrun).
  - (* Evict *)
    eexists. split; [done|]. destruct (EvictAtOnce_ok [id] σ) as [H1 H2]. auto.
  - (* EvictAtOnce *)
    eexists. split; [done|]. destruct (EvictAtOnce_ok ids σ) as [H1 H2]. auto.
  - (* Extend *)
    unfold Extend. destruct (running (queue σ) !! id) as [e|] eqn:Hr; simpl;
      [|eauto].
    eexists. split; [done|]. split; [|intros _; by apply unique_ids_ext].
    apply (wf_shrink σ _ Hwf); [| |done].
    + intros id' e' H. simpl in H. split; [done|].
      destruct (wf_entry _ Hwf _ _ H) as (Hd & _).
      rewrite entry_at_upd_entry. split; [by apply dom_upd_entry|].
      by case_bool_decide; subst.
    + intros w' Hw'. destruct (wf_worker _ Hwf _ Hw') as (? & _). done.
  - (* Pause *)
    eexists. split; [done|]. split; [by apply (wf_ext σ)|intros _; by apply unique_ids_ext].
  - (* Resume *)
    eexists. split; [done|]. split; [by apply (wf_ext σ)|intros _; by apply unique_ids_ext].
  - (* KickAgentWorkers *)
    destruct (KickAgentWorkers_loop agentID (range_workers (workers (queue σ))) σ)
      as (Hp & Hw & Hr & Hws & Ht & He & Hd & Hc).
    eexists. split; [done|]. split.
    + apply (wf_shrink σ _ Hwf).
      * intros id e H. unfold KickAgentWorkers in *. rewrite Hr in H.
        rewrite (entry_at_same _ _ _ He), He.
        destruct (wf_entry _ Hwf _ _ H) as (? & _). done.
      * intros w Hw'. apply Hws in Hw'.
        destruct (wf_worker _ Hwf _ Hw') as (? & _).
        split; [done|]. split; [set_solver|apply Hc].
      * intros p. unfold task_id. apply f_equal, task_at_same, Ht.
    + intros _. apply unique_ids_ext; try done.
      intros p. unfold task_id. apply f_equal, task_at_same, Ht.
  - (* a dispatcher pass *)
    destruct (run_dispatcher_ok now σ Hwf) as (σ' & H1 & H2 & H3). eauto.
Qed.

(** A run from a state that satisfies the memory invariant completes, in
    a state that satisfies it; when the pushes are fresh the ids stay
    unique. *)
Lemma run_ok ops σ :
  wf σ →
  ∃ σ', run ops σ = Ok σ' ∧ wf σ' ∧
        (fresh_pushes ops σ → unique_ids σ → unique_ids σ').
Proof.
  unfold run. revert σ. induction ops as [|o ops IH]; intros σ Hwf; simpl.
  - eauto.
  - destruct (exec_ok o σ Hwf) as (σ1 & -> & Hwf1 & Hu1). simpl.
    destruct (IH σ1 Hwf1) as (σ' & Hrun & Hwf' & Hu).
    exists σ'. split; [done|]. split; [done|]. intros [Hf1 Hf2] Hu0. auto.
Qed.
End Calls.

(** Every state the queue gets into satisfies the memory invariant. *)
Lemma reachable_wf `{order : MapOrder} th ops σ :
  run ops (init th) = Ok σ → wf σ.
Proof.
  intros Hrun.
  destruct (run_ok ops (init th) (wf_init th)) as (σ' & Hrun' & Hwf & _).
  rewrite Hrun in Hrun'. by injection Hrun' as ->.
Qed.

Lemma wf_scenario ops : wf (scenario ops).
Proof.
  unfold scenario.
  destruct (run_ok (order := canonical_order) ops (init memory) (wf_init _))
    as (σ' & -> & Hwf & _). done.
Qed.

(** * The claims on the finish procedure, the sweep and the runs *)

Section Claims.
Context {order : MapOrder}.

(** C4: a call of the finish procedure handles its ids one after the
    other, each as the specification says ([spec_finished_step]: the removal
    from running or else from pending, then the propagation of the status
    to the dependents still queued), and returns nil; it neither panics nor
    blocks.  [Done], [Error] and [ErrorAtOnce] are such calls. *)
Theorem finished_spec (ids : list string) (exitStatus : StatusValue)
    (err : goerror) (σ : state) :
  wf σ →
  (∃ σ', finished ids exitStatus err σ = Ok (σ', None) ∧
         spec_finished_run exitStatus err ids σ σ') ∧
  (∀ id, Done id exitStatus σ = finished [id] exitStatus None σ) ∧
  (∀ id, Error id err σ = finished [id] StatusFailure err σ) ∧
  ErrorAtOnce ids err σ = finished ids StatusFailure err σ.
Proof.
  intros Hwf. split; [|done].
  destruct (finished_ok ids exitStatus err σ Hwf) as (σ' & H1 & H2 & _). eauto.
Qed.

(** C5: the sweep completes.  A lease whose deadline is before [now] is
    taken out of running and its entry closed, the error still nil; the
    tasks of these leases are put in front of pending, each pushed to the
    front in its turn; a lease whose deadline has not passed stays, its
    entry unchanged; nothing else changes.  A pass of the dispatcher that
    is not paused starts with the sweep. *)
Theorem resubmitExpiredPipelines_spec (now : Z) (σ : state) :
  wf σ →
  ∃ σ',
    resubmitExpiredPipelines now σ = Ok σ' ∧
    (∀ id e, running (queue σ) !! id = Some e →
             (Entry.deadline (entry_at σ e) < now)%Z →
             running (queue σ') !! id = None ∧
             entry_at σ' e = Entry.set_done Closed (entry_at σ e) ∧
             Entry.done (entry_at σ' e) = Closed ∧
             Entry.error (entry_at σ' e) = None ∧
             Entry.item (entry_at σ e) ∈ pending (queue σ')) ∧
    (∀ id e, running (queue σ) !! id = Some e →
             ¬ (Entry.deadline (entry_at σ e) < now)%Z →
             running (queue σ') !! id = Some e ∧
             entry_at σ' e = entry_at σ e) ∧
    (∀ id, running (queue σ) !! id = None → running (queue σ') !! id = None) ∧
    pending (queue σ')
    = reverse (leased_items σ (filter (expired now σ)
                                 (range_running (running (queue σ)))))
      ++ pending (queue σ) ∧
    waitingOnDeps (queue σ') = waitingOnDeps (queue σ) ∧
    workers (queue σ') = workers (queue σ) ∧
    tasks σ' = tasks σ ∧ wheap σ' = wheap σ ∧
    (paused (queue σ) = false →
     process now σ
     = assign_loop (length (pending (queue (filterWaiting σ')))) now
         (filterWaiting σ')).
Proof.
  intros Hwf. unfold resubmitExpiredPipelines.
  set (l := range_running (running (queue σ))).
  destruct (resubmit_loop now l σ Hwf) as
    (σ' & Hrun & Hwf' & Hp & Hexp & Hkeep & Hents & Hw & Hws & _ & _ & Ht & Hh & _).
  { apply NoDup_range_running. }
  { intros id e. apply elem_of_range_running. }
  exists σ'. split; [done|].
  split; [|split; [|split; [|split; [done|]]]].
  - intros id e Hr Hx.
    assert (Hl : (id, e) ∈ l) by by apply elem_of_range_running.
    destruct (Hexp id e Hl Hx) as [H1 H2].
    destruct (wf_entry _ Hwf _ _ Hr) as (_ & _ & Herr & _).
    rewrite H2. repeat split; try done.
    rewrite Hp. apply elem_of_app. left. rewrite elem_of_reverse.
    unfold leased_items. apply list_elem_of_fmap. exists (id, e).
    split; [done|]. by apply list_elem_of_filter.
  - intros id e Hr Hx. split.
    + rewrite Hkeep; [done|]. intros e' He'.
      apply elem_of_range_running in He'. by simplify_eq.
    + apply Hents. intros id' _. done.
  - intros id Hr. rewrite Hkeep; [done|]. intros e He.
    apply elem_of_range_running in He. by simplify_eq.
  - repeat split; try done. intros Hpa. unfold process, resubmitExpiredPipelines.
    rewrite Hpa. fold l. by rewrite Hrun.
Qed.

(** C3, as the code has it: [Done] and [Error] complete; a [Wait] on the
    id that starts after them finds no entry in running and returns nil at
    once, whatever error was recorded; the recorded error is what a [Wait]
    gets that had looked the entry up before. *)
Theorem wait_after_finished (id : string) (exitStatus : StatusValue)
    (err : goerror) (σ : state) :
  wf σ →
  ∃ σd σe,
    Done id exitStatus σ = Ok (σd, None) ∧
    Error id err σ = Ok (σe, None) ∧
    (∀ c cs σ', Wait c id cs σd σ' = Some None) ∧
    (∀ c cs σ', Wait c id cs σe σ' = Some None) ∧
    (∀ e c, Wait_lookup id σ = Some e →
            Wait_select c e WaitEntryDone σd = Some None ∧
            Wait_select c e WaitEntryDone σe = Some err).
Proof.
  intros Hwf.
  assert (Hone : ∀ st er, ∃ σ',
             finished [id] st er σ = Ok (σ', None) ∧
             running (queue σ') !! id = None ∧
             ∀ e, running (queue σ) !! id = Some e →
                  Entry.done (entry_at σ' e) = Closed ∧
                  Entry.error (entry_at σ' e) = er).
  { intros st er. unfold finished. simpl.
    destruct (finished_id_ok st er id σ Hwf) as (σ' & -> & [Hrm _] & _).
    exists σ'. split; [done|]. split.
    - destruct (running (queue σ) !! id) as [e|] eqn:Hr.
      + destruct (rm_running _ _ _ _ Hrm e Hr) as (_ & _ & _ & _ & -> & _).
        apply lookup_delete_eq.
      + destruct (decide (id ∈ pending_ids σ)) as [Hin|Hin].
        * destruct (rm_pending _ _ _ _ Hrm Hr Hin) as (? & ? & ? & _ & _ & _ & _ & ->).
          done.
        * destruct (rm_unknown _ _ _ _ Hrm Hr Hin) as [_ ->]. done.
    - intros e Hr. destruct (rm_running _ _ _ _ Hrm e Hr) as (? & ? & _). done. }
  destruct (Hone exitStatus None) as (σd & Hd & Hrd & Hed).
  destruct (Hone StatusFailure err) as (σe & He & Hre & Hee).
  exists σd, σe. unfold Done, Error, Wait, Wait_lookup.
  rewrite Hrd, Hre. repeat split; try done.
  - unfold Wait_select. destruct (Hed e H) as [-> ->]. done.
  - unfold Wait_select. destruct (Hee e H) as [-> ->]. done.
Qed.

(** C10: when the id is not running, [Done] and [Error] complete and
    leave waitingOnDeps as it is, so an id that waits keeps waiting; a
    waiting task that lists the id gets the status written, the other
    waiting tasks are unchanged. *)
Theorem finished_keeps_waiting (id : string) (exitStatus : StatusValue)
    (err : goerror) (σ : state) :
  running (queue σ) !! id = None → id ∈ waiting_ids σ →
  ∃ σd σe,
    Done id exitStatus σ = Ok (σd, None) ∧
    Error id err σ = Ok (σe, None) ∧
    waitingOnDeps (queue σd) = waitingOnDeps (queue σ) ∧
    waitingOnDeps (queue σe) = waitingOnDeps (queue σ) ∧
    id ∈ waiting_ids σd ∧ id ∈ waiting_ids σe ∧
    ∀ p, p ∈ waitingOnDeps (queue σ) →
         task_at σd p = dep_written id exitStatus (task_at σ p) ∧
         task_at σe p = dep_written id StatusFailure (task_at σ p).
Proof.
  intros Hr Hin.
  assert (Hone : ∀ st er, ∃ σ',
             finished [id] st er σ = Ok (σ', None) ∧
             waitingOnDeps (queue σ') = waitingOnDeps (queue σ) ∧
             id ∈ waiting_ids σ' ∧
             ∀ p, p ∈ waitingOnDeps (queue σ) →
                  task_at σ' p = dep_written id st (task_at σ p)).
  { intros st er. unfold finished. simpl.
    destruct (finished_id_not_running st er id σ Hr) as [-> Hs]. simpl.
    eexists. split; [done|]. pose proof Hs as [Hrm Hpr].
    pose proof (rm_waiting _ _ _ _ Hrm) as Hw. split; [done|]. split.
    - rewrite (waiting_ids_same σ _); [done|done|].
      intros p. by apply (finished_step_task_id st er id).
    - intros p Hp. apply (pr_tasks _ _ _ _ Hpr p). right. left. by rewrite Hw. }
  destruct (Hone exitStatus None) as (σd & Hd & Hwd & Hid & Htd).
  destruct (Hone StatusFailure err) as (σe & He & Hwe & Hie & Hte).
  exists σd, σe. repeat split; try done; [by apply Htd | by apply Hte].
Qed.

(** C1, as the code has it: a run from the empty queue completes, and
    when every push brings ids that are not in the queue at that time (and
    no id twice), no id is in more than one of pending, waitingOnDeps and
    running, nor twice in one of them. *)
Theorem fresh_runs_exclusive (th : gmap tref Task) (ops : list op) :
  fresh_pushes ops (init th) →
  ∃ σ, run ops (init th) = Ok σ ∧ exclusive σ ∧ unique_ids σ.
Proof.
  intros Hf.
  destruct (run_ok ops (init th) (wf_init th)) as (σ & Hrun & _ & Hu).
  exists σ. split; [done|].
  assert (unique_ids σ) by (apply Hu; [done | apply unique_ids_init]).
  split; [by apply unique_ids_exclusive | done].
Qed.
End Claims.

(** ** The claims on concrete queues *)

#[local] Existing Instance canonical_order.

Lemma finished_spec_witness :
  wf leased ∧
  ((∃ σ', finished (order := canonical_order) ["A"; "Z"] "success" boom leased
          = Ok (σ', None) ∧
          spec_finished_run "success" boom ["A"; "Z"] leased σ') ∧
   (∀ id, Done (order := canonical_order) id "success" leased
          = finished [id] "success" None leased) ∧
   (∀ id, Error (order := canonical_order) id boom leased
          = finished [id] StatusFailure boom leased) ∧
   ErrorAtOnce (order := canonical_order) ["A"; "Z"] boom leased
   = finished ["A"; "Z"] StatusFailure boom leased).
Proof.
  split; [apply wf_scenario|].
  apply (finished_spec ["A"; "Z"] "success" boom leased), wf_scenario.
Defined.

Lemma resubmitExpiredPipelines_spec_witness :
  wf leased ∧
  ∃ σ', resubmitExpiredPipelines (order := canonical_order) 700000000000 leased
        = Ok σ' ∧
        running (queue σ') !! "A" = None ∧
        Entry.done (entry_at σ' 0) = Closed ∧
        Entry.error (entry_at σ' 0) = None ∧
        pending (queue σ') = [1].
Proof.
  split; [apply wf_scenario|].
  destruct (resubmitExpiredPipelines_spec (order := canonical_order)
              700000000000 leased (wf_scenario leased_ops))
    as (σ' & Hrun & Hexp & _ & _ & Hp & _).
  exists σ'. split; [exact Hrun|].
  destruct (Hexp "A" 0) as (H1 & _ & H3 & H4 & _); [reflexivity..|].
  split; [exact H1|]. split; [exact H3|]. split; [exact H4|]. exact Hp.
Defined.

Lemma wait_after_finished_witness :
  wf leased ∧
  ∃ σd σe,
    Done (order := canonical_order) "A" "success" leased = Ok (σd, None) ∧
    Error (order := canonical_order) "A" boom leased = Ok (σe, None) ∧
    (∀ c cs σ', Wait c "A" cs σd σ' = Some None) ∧
    (∀ c cs σ', Wait c "A" cs σe σ' = Some None) ∧
    (∀ e c, Wait_lookup "A" leased = Some e →
            Wait_select c e WaitEntryDone σd = Some None ∧
            Wait_select c e WaitEntryDone σe = Some boom).
Proof.
  split; [apply wf_scenario|].
  apply (wait_after_finished "A" "success" boom leased), wf_scenario.
Defined.

(** C3 fails as written: A is leased; after [Error] of A with the error
    boom, recorded in the entry, a [Wait] on A returns nil and not boom. *)
Lemma wait_after_error_returns_nil :
  running (queue leased) !! "A" = Some 0 ∧
  (r ← Error (order := canonical_order) "A" boom leased;
   Ok (Entry.error (entry_at r.1 0),
       Wait None "A" WaitEntryDone r.1 r.1,
       Wait (Some ErrCanceled) "A" WaitCtxDone r.1 r.1))
  = Ok (boom, Some None, Some None) ∧
  Some None ≠ Some boom.
Proof. by vm_compute. Qed.

Lemma finished_keeps_waiting_witness :
  running (queue leased) !! "B" = None ∧ "B" ∈ waiting_ids leased ∧
  ∃ σd σe,
    Done (order := canonical_order) "B" "success" leased = Ok (σd, None) ∧
    Error (order := canonical_order) "B" boom leased = Ok (σe, None) ∧
    waitingOnDeps (queue σd) = waitingOnDeps (queue leased) ∧
    waitingOnDeps (queue σe) = waitingOnDeps (queue leased) ∧
    "B" ∈ waiting_ids σd ∧ "B" ∈ waiting_ids σe ∧
    ∀ p, p ∈ waitingOnDeps (queue leased) →
         task_at σd p = dep_written "B" "success" (task_at leased p) ∧
         task_at σe p = dep_written "B" StatusFailure (task_at leased p).
Proof.
  assert (H1 : running (queue leased) !! "B" = None) by reflexivity.
  assert (H2 : "B" ∈ waiting_ids leased).
  { apply (bool_decide_unpack _). vm_compute. exact I. }
  split; [exact H1|]. split; [exact H2|].
  exact (finished_keeps_waiting (order := canonical_order)
           "B" "success" boom leased H1 H2).
Defined.

Lemma fresh_runs_exclusive_witness :
  fresh_pushes (order := canonical_order) chain_ops (init memory) ∧
  ∃ σ, run (order := canonical_order) chain_ops (init memory) = Ok σ ∧
       exclusive σ ∧ unique_ids σ.
Proof.
  assert (H : fresh_pushes (order := canonical_order) chain_ops (init memory)).
  { apply (bool_decide_unpack _). vm_compute. exact I. }
  split; [exact H|].
  exact (fresh_runs_exclusive (order := canonical_order) memory chain_ops H).
Defined.

(** C1 fails as written: A is pushed twice and one worker polls; the
    dispatcher leases the first A and leaves the second in pending, so the
    id A is in pending and in running. *)
Lemma push_twice_not_exclusive :
  (σ ← run (order := canonical_order) pushed_twice_ops (init memory);
   Ok (pending_ids σ, elements (running_ids σ), waiting_ids σ))
  = Ok (["A"], ["A"], []) ∧
  ¬ exclusive (scenario pushed_twice_ops).
Proof.
  split; [by vm_compute|]. intros H.
  destruct (H "A") as (_ & H2 & _). apply H2.
  split; apply (bool_decide_unpack _); vm_compute; exact I.
Qed.

Lemma cancellation_witness :
  workers (queue polling) = {[0]} ∧
  ∃ e' σ',
    Worker.ctx_err (worker_at (cancel_context 0 ErrDeadlineExceeded polling) 0)
    = Some e' ∧
    (Worker.ctx_err (worker_at polling 0) = None → e' = ErrDeadlineExceeded) ∧
    Poll_select 0 PollCtxDone (cancel_context 0 ErrDeadlineExceeded polling)
    = Some (σ', (None, Some e')) ∧
    (0 ∉ workers (queue σ')).
Proof.
  split; [reflexivity|].
  destruct (cancellation 0 ErrDeadlineExceeded polling 0 leased)
    as [(e' & σ' & H1 & H2 & H3 & H4 & _) _].
  exists e', σ'. split; [exact H1|]. split; [exact H2|]. split; [exact H3|].
  exact H4.
Defined.

(** * Further properties of the queue *)

(** The properties below hold for every order in which the maps are
    enumerated. *)
#[local] Remove Hints canonical_order : typeclass_instances.

(** ** Pushing and extending *)

Section PushExtend.
Context {order : MapOrder}.

Lemma pushes_fold ts σ :
  foldl (λ σ task, upd_queue (λ q, set_pending (pending q ++ [task]) q) σ) σ ts
  = upd_queue (λ q, set_pending (pending q ++ ts) q) σ.
Proof.
  revert σ. induction ts as [|t ts IH]; intros σ; simpl.
  - destruct σ as [[] ? ? ? ?]. unfold upd_queue, set_queue, set_pending; simpl.
    by rewrite app_nil_r.
  - rewrite IH. destruct σ as [[] ? ? ? ?].
    unfold upd_queue, set_queue, set_pending; simpl. by rewrite <- app_assoc.
Qed.

(** X1: [PushAtOnce] appends the batch to the tail of pending in the
    order given and starts one dispatcher; a batch of one is [Push]; two
    batches in a row leave the queue that the joined batch leaves, with one
    more dispatcher started. *)
Theorem PushAtOnce_appends (ts1 ts2 : list tref) (σ : state) :
  PushAtOnce ts1 σ
  = go_process (upd_queue (λ q, set_pending (pending q ++ ts1) q) σ) ∧
  (∀ t, PushAtOnce [t] σ = Push t σ) ∧
  queue (PushAtOnce ts2 (PushAtOnce ts1 σ)) = queue (PushAtOnce (ts1 ++ ts2) σ) ∧
  dispatchers (PushAtOnce ts2 (PushAtOnce ts1 σ))
  = S (dispatchers (PushAtOnce (ts1 ++ ts2) σ)).
Proof.
  assert (H : ∀ ts σ, PushAtOnce ts σ
    = go_process (upd_queue (λ q, set_pending (pending q ++ ts) q) σ)).
  { intros ts σ0. unfold PushAtOnce. by rewrite pushes_fold. }
  split; [apply H|]. split; [done|]. rewrite !H.
  destruct σ as [[] ? ? ? ?]. simpl. unfold set_pending; simpl.
  by rewrite app_assoc.
Qed.

(** X2: [Extend] of a running id at time [now] sets the deadline of its
    entry to [now] plus the extension and changes nothing else; a sweep at
    any time up to that deadline leaves the lease in running, its entry
    unchanged and open. *)
Theorem Extend_keeps_lease (now now' : Z) (id : string) (e : eref) (σ : state) :
  wf σ → running (queue σ) !! id = Some e →
  (now' ≤ now + extension (queue σ))%Z →
  ∃ σ1 σ',
    Extend now id σ = (σ1, None) ∧
    Entry.deadline (entry_at σ1 e) = (now + extension (queue σ))%Z ∧
    queue σ1 = queue σ ∧ tasks σ1 = tasks σ ∧ wheap σ1 = wheap σ ∧
    (∀ e', e' ≠ e → entry_at σ1 e' = entry_at σ e') ∧
    resubmitExpiredPipelines now' σ1 = Ok σ' ∧
    running (queue σ') !! id = Some e ∧
    entry_at σ' e = entry_at σ1 e ∧
    Entry.done (entry_at σ' e) = Open.
Proof.
  intros Hwf Hr Hle.
  destruct (exec_ok (OpExtend now id) σ Hwf) as (σ1 & Hex & Hwf1 & _).
  simpl in Hex. injection Hex as Hex.
  unfold Extend in *. rewrite Hr in *. simpl in Hex. subst σ1.
  set (σ1 := upd_entry e (Entry.set_deadline (now + extension (queue σ))) σ) in *.
  assert (Hd : Entry.deadline (entry_at σ1 e) = (now + extension (queue σ))%Z).
  { unfold σ1. by rewrite entry_at_upd_entry, bool_decide_true. }
  destruct (resubmit_loop now' (range_running (running (queue σ1))) σ1 Hwf1)
    as (σ' & Hrun & Hwf' & _ & _ & Hkeep & Hents & _).
  { apply NoDup_range_running. }
  { intros id' e'. apply elem_of_range_running. }
  exists σ1, σ'. split; [done|]. split; [done|]. split; [done|].
  split; [done|]. split; [done|]. split.
  { intros e' Hne. unfold σ1. by rewrite entry_at_upd_entry, bool_decide_false. }
  split; [done|].
  assert (Hk : running (queue σ') !! id = Some e).
  { rewrite Hkeep; [done|]. intros e' He'. apply elem_of_range_running in He'.
    assert (e' = e) as -> by (simpl in He'; congruence).
    unfold expired. simpl. rewrite Hd. lia. }
  assert (He : entry_at σ' e = entry_at σ1 e).
  { apply Hents. intros id' _. unfold expired. simpl. rewrite Hd. lia. }
  split; [done|]. split; [done|]. rewrite He.
  by destruct (wf_entry _ Hwf1 id e Hr) as (_ & ? & _).
Qed.

End PushExtend.

(** ** Kicking workers and matching *)

Lemma Worker_stop_idemp c w : Worker.stop c (Worker.stop c w) = Worker.stop c w.
Proof.
  unfold Worker.stop, Worker.cancel. by destruct (Worker.ctx_err w) eqn:H; simpl; rewrite ?H.
Qed.

Lemma Worker_stop_agentID c w : Worker.agentID (Worker.stop c w) = Worker.agentID w.
Proof. unfold Worker.stop, Worker.cancel. by destruct (Worker.ctx_err w). Qed.

Section KickMatch.
Context {order : MapOrder}.

Lemma Kick_loop_workers a l σ :
  let σ' := foldl (λ σ w,
                     if bool_decide (Worker.agentID (worker_at σ w) = a)
                     then upd_queue (λ q, set_workers (workers q ∖ {[w]}) q)
                            (upd_worker w (Worker.stop ErrWorkerKicked) σ)
                     else σ) σ l in
  (∀ w, w ∈ workers (queue σ') ↔
        w ∈ workers (queue σ) ∧ ¬ (w ∈ l ∧ Worker.agentID (worker_at σ w) = a)) ∧
  (∀ w, worker_at σ' w =
        if bool_decide (w ∈ l ∧ Worker.agentID (worker_at σ w) = a)
        then Worker.stop ErrWorkerKicked (worker_at σ w) else worker_at σ w).
Proof.
  revert σ. induction l as [|w0 l IH]; intros σ; simpl.
  - split; intros w.
    + rewrite elem_of_nil. tauto.
    + done.
  - case_bool_decide as Ha.
    + match goal with |- context [foldl _ ?s l] => destruct (IH s) as [Hw Hc] end.
      assert (Hag : ∀ w, Worker.agentID
                 (worker_at (upd_queue (λ q, set_workers (workers q ∖ {[w0]}) q)
                    (upd_worker w0 (Worker.stop ErrWorkerKicked) σ)) w)
               = Worker.agentID (worker_at σ w)).
      { intros w. rewrite worker_at_upd_queue, worker_at_upd_worker.
        case_bool_decide; [subst; apply Worker_stop_agentID | done]. }
      split; intros w.
      * rewrite Hw, Hag. simpl. rewrite elem_of_difference, elem_of_singleton,
          elem_of_cons. split.
        -- intros [[H1 H2] H3]. split; [done|]. intros [[->|H4] H5]; tauto.
        -- intros [H1 H2]. split; [split; [done|]|].
           ++ intros ->. apply H2. split; [by left|done].
           ++ intros [H4 H5]. apply H2. split; [by right|done].
      * rewrite Hc, Hag. rewrite worker_at_upd_queue, worker_at_upd_worker.
        destruct (decide (w = w0)) as [->|Hne].
        -- rewrite (bool_decide_true (w0 = w0)) by done.
           rewrite (bool_decide_true (w0 ∈ w0 :: l ∧ _)) by (split; [left|done]).
           case_bool_decide; [apply Worker_stop_idemp | done].
        -- rewrite (bool_decide_false (w = w0)) by done.
           rewrite (bool_decide_ext (w ∈ l ∧ Worker.agentID (worker_at σ w) = a)
                      (w ∈ w0 :: l ∧ Worker.agentID (worker_at σ w) = a)); [done|].
           rewrite elem_of_cons. tauto.
    + destruct (IH σ) as [Hw Hc]. split; intros w.
      * rewrite Hw, elem_of_cons. split; intros [H1 H2]; (split; [done|]).
        -- intros [[->|H3] H4]; [done|tauto].
        -- intros [H3 H4]. apply H2. split; [by right|done].
      * rewrite Hc.
        rewrite (bool_decide_ext (w ∈ l ∧ Worker.agentID (worker_at σ w) = a)
                   (w ∈ w0 :: l ∧ Worker.agentID (worker_at σ w) = a)); [done|].
        rewrite elem_of_cons. split; [tauto|]. intros [[->|H3] H4]; [done|tauto].
Qed.

Lemma Kick_loop_paused a l σ :
  paused (queue (foldl (λ σ w,
                     if bool_decide (Worker.agentID (worker_at σ w) = a)
                     then upd_queue (λ q, set_workers (workers q ∖ {[w]}) q)
                            (upd_worker w (Worker.stop ErrWorkerKicked) σ)
                     else σ) σ l))
  = paused (queue σ).
Proof.
  revert σ. induction l as [|w l IH]; intros σ; simpl; [done|].
  case_bool_decide; by rewrite IH.
Qed.

(** X4: after [KickAgentWorkers] the registered workers are those of the
    other agents; the context of every worker of the agent is cancelled
    through [stop] with the kick reason; the other workers' cells, the
    three collections, the paused flag and the heaps of tasks and entries
    are unchanged. *)
Theorem KickAgentWorkers_spec (a : Z) (σ : state) :
  (∀ w, w ∈ workers (queue (KickAgentWorkers a σ)) ↔
        w ∈ workers (queue σ) ∧ Worker.agentID (worker_at σ w) ≠ a) ∧
  (∀ w, w ∈ workers (queue σ) → Worker.agentID (worker_at σ w) = a →
        worker_at (KickAgentWorkers a σ) w
        = Worker.stop ErrWorkerKicked (worker_at σ w)) ∧
  (∀ w, ¬ (w ∈ workers (queue σ) ∧ Worker.agentID (worker_at σ w) = a) →
        worker_at (KickAgentWorkers a σ) w = worker_at σ w) ∧
  pending (queue (KickAgentWorkers a σ)) = pending (queue σ) ∧
  waitingOnDeps (queue (KickAgentWorkers a σ)) = waitingOnDeps (queue σ) ∧
  running (queue (KickAgentWorkers a σ)) = running (queue σ) ∧
  paused (queue (KickAgentWorkers a σ)) = paused (queue σ) ∧
  tasks (KickAgentWorkers a σ) = tasks σ ∧
  entries (KickAgentWorkers a σ) = entries σ.
Proof.
  destruct (Kick_loop_workers a (range_workers (workers (queue σ))) σ) as [Hw Hc].
  destruct (KickAgentWorkers_loop a (range_workers (workers (queue σ))) σ)
    as (Hp & Hwt & Hr & _ & Ht & He & _).
  fold (KickAgentWorkers a σ) in *.
  split; [|split; [|split]].
  - intros w. rewrite Hw, elem_of_range_workers. tauto.
  - intros w Hin Ha. rewrite Hc, bool_decide_true; [done|].
    by rewrite elem_of_range_workers.
  - intros w Hn. rewrite Hc, bool_decide_false; [done|].
    by rewrite elem_of_range_workers.
  - repeat split; try done. apply Kick_loop_paused.
Qed.

(** X5: a [Poll] whose worker is kicked while its context is not done
    returns no task and [context.Canceled]; the kick reason is kept as the
    cause of the context only, and the worker is gone from the registry. *)
Theorem kicked_poll_returns_canceled (a : Z) (w : wref) (σ : state) :
  w ∈ workers (queue σ) → Worker.agentID (worker_at σ w) = a →
  Worker.ctx_err (worker_at σ w) = None →
  ∃ σ',
    Poll_select w PollCtxDone (KickAgentWorkers a σ)
    = Some (σ', (None, Some ErrCanceled)) ∧
    Worker.ctx_cause (worker_at (KickAgentWorkers a σ) w) = Some ErrWorkerKicked ∧
    (w ∉ workers (queue (KickAgentWorkers a σ))) ∧
    queue σ' = queue (KickAgentWorkers a σ).
Proof.
  intros Hin Ha Hc.
  destruct (Kick_loop_workers a (range_workers (workers (queue σ))) σ) as [Hw Hk].
  fold (KickAgentWorkers a σ) in *.
  assert (Hcell : worker_at (KickAgentWorkers a σ) w
                  = Worker.stop ErrWorkerKicked (worker_at σ w)).
  { rewrite Hk, bool_decide_true; [done|]. by rewrite elem_of_range_workers. }
  assert (Hout : w ∉ workers (queue (KickAgentWorkers a σ))).
  { rewrite Hw, elem_of_range_workers. tauto. }
  unfold Poll_select. rewrite Hcell.
  unfold Worker.stop, Worker.cancel. rewrite Hc. simpl.
  eexists. split; [done|]. split; [done|]. split; [done|].
  destruct (KickAgentWorkers a σ) as [[ws ? ? ? ? ?] ? ? ? ?]. simpl in *.
  unfold upd_queue, set_workers; simpl. f_equal.
  apply set_eq. intros x. rewrite elem_of_difference, elem_of_singleton.
  split; [tauto|]. intros Hx. split; [done|]. by intros ->.
Qed.

Lemma assignToWorker_from_spec σ k l :
  match assignToWorker_from σ k l with
  | None => ∀ t w, t ∈ l → w ∈ workers (queue σ) →
                   Worker.filter (worker_at σ w) (task_at σ t) = false
  | Some (i, t, w) =>
      ∃ j, i = k + j ∧ l !! j = Some t ∧ w ∈ workers (queue σ) ∧
           Worker.filter (worker_at σ w) (task_at σ t) = true ∧
           ∀ j' t' w', j' < j → l !! j' = Some t' → w' ∈ workers (queue σ) →
                       Worker.filter (worker_at σ w') (task_at σ t') = false
  end.
Proof.
  revert k. induction l as [|t0 l IH]; intros k; simpl.
  - intros t w H. by apply elem_of_nil in H.
  - destruct (find _ _) as [w0|] eqn:Hf.
    + apply find_some in Hf as [Hin Hacc]. exists 0. split; [lia|].
      split; [done|]. split.
      { apply elem_of_range_workers. by apply list_elem_of_In. }
      split; [done|]. intros j' t' w' Hlt. lia.
    + assert (Hrej : ∀ w, w ∈ workers (queue σ) →
                          Worker.filter (worker_at σ w) (task_at σ t0) = false).
      { intros w Hw. apply (find_none _ _ Hf).
        apply list_elem_of_In. by apply elem_of_range_workers. }
      specialize (IH (S k)).
      destruct (assignToWorker_from σ (S k) l) as [[[i t] w]|].
      * destruct IH as (j & -> & Hj & Hw & Hacc & Hmin). exists (S j).
        split; [lia|]. split; [done|]. split; [done|]. split; [done|].
        intros [|j'] t' w' Hlt Hl Hw'; simpl in Hl.
        -- injection Hl as <-. by apply Hrej.
        -- apply (Hmin j' t' w'); [lia|done..].
      * intros t w [->|Ht]%elem_of_cons Hw; [by apply Hrej | by apply IH].
Qed.

(** X6: [assignToWorker] returns nil exactly when no registered worker
    accepts any pending task; otherwise it returns the first pending task,
    in list order, that some registered worker accepts, with a worker that
    accepts it. *)
Theorem assignToWorker_first_match (σ : state) :
  (assignToWorker σ = None ↔
   ∀ t w, t ∈ pending (queue σ) → w ∈ workers (queue σ) →
          Worker.filter (worker_at σ w) (task_at σ t) = false) ∧
  (∀ i t w, assignToWorker σ = Some (i, t, w) →
     pending (queue σ) !! i = Some t ∧ w ∈ workers (queue σ) ∧
     Worker.filter (worker_at σ w) (task_at σ t) = true ∧
     ∀ j t' w', j < i → pending (queue σ) !! j = Some t' →
                w' ∈ workers (queue σ) →
                Worker.filter (worker_at σ w') (task_at σ t') = false).
Proof.
  pose proof (assignToWorker_from_spec σ 0 (pending (queue σ))) as H.
  unfold assignToWorker. split.
  - destruct (assignToWorker_from σ 0 (pending (queue σ))) as [[[i t] w]|].
    + split; [done|]. intros Hall.
      destruct H as (j & _ & Hj & Hw & Hacc & _).
      rewrite (Hall t w) in Hacc; [done| |done].
      by apply list_elem_of_lookup_2 in Hj.
    + done.
  - intros i t w Heq. rewrite Heq in H.
    destruct H as (j & -> & H). simpl. done.
Qed.

Lemma assign_loop_done fuel now σ σ' :
  assign_loop fuel now σ = Ok σ' → assignToWorker σ' = None.
Proof.
  revert σ. induction fuel as [|fuel IH]; intros σ; simpl.
  - destruct (assignToWorker σ) as [[[i t] w]|] eqn:Ha; [done|].
    by intros [= <-].
  - destruct (assignToWorker σ) as [[[i t] w]|] eqn:Ha; [|by intros [= <-]].
    destruct (assign now i t w σ) as [σ1| | |]; simpl; try done. apply IH.
Qed.

(** X7: a pass that is not paused ends with no registered worker
    accepting any task left in pending. *)
Theorem process_matches_all (now : Z) (σ : state) :
  wf σ → paused (queue σ) = false →
  ∃ σ', process now σ = Ok σ' ∧
        ∀ t w, t ∈ pending (queue σ') → w ∈ workers (queue σ') →
               Worker.filter (worker_at σ' w) (task_at σ' t) = false.
Proof.
  intros Hwf Hp. destruct (process_ok now σ Hwf) as (σ' & Hrun & _).
  exists σ'. split; [done|].
  unfold process in Hrun. rewrite Hp in Hrun.
  destruct (resubmitExpiredPipelines now σ) as [σ1| | |]; simpl in Hrun; try done.
  apply assign_loop_done in Hrun.
  pose proof (assignToWorker_from_spec σ' 0 (pending (queue σ'))) as H.
  unfold assignToWorker in Hrun. by rewrite Hrun in H.
Qed.
End KickMatch.

(** ** Gating again, Info, a cancelled Poll *)

Lemma existsb_perm {A} (f : A → bool) (l l' : list A) :
  l ≡ₚ l' → existsb f l = existsb f l'.
Proof.
  induction 1 as [|x l l' _ IH|x y l|l1 l2 l3 _ IH1 _ IH2]; simpl.
  - done.
  - by rewrite IH.
  - by destruct (f x), (f y).
  - by rewrite IH1.
Qed.

Lemma existsb_pointwise {A} (f g : A → bool) (l : list A) :
  (∀ x, f x = g x) → existsb f l = existsb g l.
Proof. intros Hfg. induction l as [|x l IH]; simpl; [done|]. by rewrite Hfg, IH. Qed.

Lemma filter_none {A} (P : A → Prop) `{!∀ x, Decision (P x)} (l : list A) :
  (∀ x, x ∈ l → ¬ P x) → filter P l = [].
Proof.
  induction l as [|x l IH]; intros Hall; [done|].
  rewrite filter_cons. destruct (decide (P x)) as [HP|HP].
  - exfalso. apply (Hall x); [left|done].
  - apply IH. intros y Hy. apply Hall. by right.
Qed.

Lemma filter_all {A} (P : A → Prop) `{!∀ x, Decision (P x)} (l : list A) :
  (∀ x, x ∈ l → P x) → filter P l = l.
Proof.
  induction l as [|x l IH]; intros Hall; [done|].
  rewrite filter_cons. destruct (decide (P x)) as [HP|HP].
  - f_equal. apply IH. intros y Hy. apply Hall. by right.
  - exfalso. apply HP, Hall. left.
Qed.

Section Regate.
Context {order : MapOrder}.

(** Gating looks at the ids in pending, not at their order. *)
Lemma depsInQueue_perm σa σb t :
  pending (queue σa) ≡ₚ pending (queue σb) →
  running (queue σa) = running (queue σb) → tasks σa = tasks σb →
  depsInQueue σa t = depsInQueue σb t.
Proof.
  intros Hp Hr Ht. unfold depsInQueue. rewrite Hr.
  rewrite (task_at_same σb σa t Ht). f_equal.
  rewrite (existsb_perm _ _ _ Hp). apply existsb_pointwise.
  intros p. apply existsb_pointwise. intros dep. unfold task_id.
  by rewrite (task_at_same σb σa p Ht).
Qed.

(** X8: [filterWaiting] applied twice gives the state it gives applied
    once: the gating looks at which ids are pending and running, not at
    the order of pending. *)
Theorem filterWaiting_idempotent (σ : state) :
  filterWaiting (filterWaiting σ) = filterWaiting σ.
Proof.
  unfold filterWaiting at 1.
  set (σF := filterWaiting σ).
  set (σ1' := upd_queue _ σF).
  unfold filterWaiting in σF.
  set (σ1 := upd_queue _ σ) in σF.
  set (l := pending (queue σ) ++ waitingOnDeps (queue σ)).
  assert (Hdeps : ∀ t, depsInQueue σ1' t = depsInQueue σ1 t).
  { intros t. apply depsInQueue_perm; [|done..]. simpl.
    rewrite (list_filter_iff (λ t, depsInQueue σ1 t = false)
               (λ t, ¬ depsInQueue σ1 t = true)).
    - rewrite Permutation_app_comm. apply filter_app_complement.
    - intros t'. by destruct (depsInQueue σ1 t'). }
  assert (HU : filter (λ t, depsInQueue σ1' t = false) (pending (queue σ1'))
               = filter (λ t, depsInQueue σ1 t = false) l).
  { rewrite (list_filter_iff _ (λ t, depsInQueue σ1 t = false))
      by (intros t; by rewrite Hdeps).
    simpl. fold l. rewrite filter_app.
    rewrite (filter_all _ (filter _ l)).
    2:{ intros x Hx. by apply list_elem_of_filter in Hx as [? _]. }
    rewrite (filter_none _ (filter _ l)); [by rewrite app_nil_r|].
    intros x Hx. apply list_elem_of_filter in Hx as [Hx _]. by rewrite Hx. }
  assert (HG : filter (λ t, depsInQueue σ1' t = true) (pending (queue σ1'))
               = filter (λ t, depsInQueue σ1 t = true) l).
  { rewrite (list_filter_iff _ (λ t, depsInQueue σ1 t = true))
      by (intros t; by rewrite Hdeps).
    simpl. fold l. rewrite filter_app.
    rewrite (filter_none _ (filter _ l)).
    2:{ intros x Hx. apply list_elem_of_filter in Hx as [Hx _]. by rewrite Hx. }
    rewrite (filter_all _ (filter _ l)); [done|].
    intros x Hx. by apply list_elem_of_filter in Hx as [? _]. }
  transitivity
    (mkState
       (mkFifo (workers (queue σ)) (running (queue σ))
          (filter (λ t, depsInQueue σ1' t = false) (pending (queue σ1')))
          (filter (λ t, depsInQueue σ1' t = true) (pending (queue σ1')))
          (extension (queue σ)) (paused (queue σ)))
       (tasks σ) (entries σ) (wheap σ) (dispatchers σ)); [reflexivity|].
  rewrite HU, HG. reflexivity.
Qed.

Lemma length_range_running (m : gmap string eref) :
  length (range_running m) = size m.
Proof. rewrite range_running_perm. apply length_map_to_list. Qed.

(** X9: [Info] returns pending and waitingOnDeps as they are and the
    paused flag; its counts are the lengths of the lists it returns and the
    size of the registry; together the three lists hold exactly the tasks
    the queue holds. *)
Theorem Info_spec (σ : state) :
  Pending (Info σ) = pending (queue σ) ∧
  WaitingOnDeps (Info σ) = waitingOnDeps (queue σ) ∧
  Paused (Info σ) = paused (queue σ) ∧
  InfoStats.Pending (Stats (Info σ)) = length (Pending (Info σ)) ∧
  InfoStats.WaitingOnDeps (Stats (Info σ)) = length (WaitingOnDeps (Info σ)) ∧
  InfoStats.Running (Stats (Info σ)) = length (Running (Info σ)) ∧
  InfoStats.Workers (Stats (Info σ)) = size (workers (queue σ)) ∧
  ∀ p, p ∈ Pending (Info σ) ++ WaitingOnDeps (Info σ) ++ Running (Info σ)
       ↔ queued σ p.
Proof.
  repeat split; try done.
  - simpl. by rewrite length_fmap, length_range_running.
  - simpl. rewrite !elem_of_app. intros [H|[H|H]]; [by left|by right; left|].
    right. right. apply list_elem_of_fmap in H as ([id e] & -> & H).
    apply elem_of_range_running in H. eauto.
  - simpl. rewrite !elem_of_app. intros [H|[H|(id & e & H & <-)]];
      [by left|by right; left|].
    right. right. apply list_elem_of_fmap. exists (id, e).
    split; [done|]. by apply elem_of_range_running.
Qed.

(** X10: [Poll] registers a worker that was not registered, with an
    empty channel, so that no task can be received yet, and leaves the
    other workers as they were.  When the caller's context is then
    cancelled, the call returns the error of the context (the earlier one
    if it was already done at the start) and the queue struct, the tasks
    and the entries are as before the [Poll]; one dispatcher was started. *)
Theorem cancelled_poll_leaves_no_trace (c : goerror) (a : Z) (f : FilterFn)
    (e : error_value) (σ : state) :
  wf σ →
  let w := (Poll_register c a f σ).1 in
  let σ1 := (Poll_register c a f σ).2 in
  (w ∉ workers (queue σ)) ∧ w ∈ workers (queue σ1) ∧
  worker_at σ1 w = Worker.mk a f None c c ∧
  (∀ w', w' ∈ workers (queue σ) → worker_at σ1 w' = worker_at σ w') ∧
  Poll_select w PollReceive σ1 = None ∧
  ∃ e' σ2,
    Poll_select w PollCtxDone (cancel_context w e σ1)
    = Some (σ2, (None, Some e')) ∧
    e' = match c with Some e0 => e0 | None => e end ∧
    queue σ2 = queue σ ∧ tasks σ2 = tasks σ ∧ entries σ2 = entries σ ∧
    dispatchers σ2 = S (dispatchers σ) ∧
    ∀ w', w' ∈ workers (queue σ) → worker_at σ2 w' = worker_at σ w'.
Proof.
  intros Hwf w σ1.
  assert (Hfresh : w ∉ dom (wheap σ)) by apply is_fresh.
  assert (Hnew : w ∉ workers (queue σ)).
  { intros Hin. by destruct (wf_worker _ Hwf _ Hin) as [? _]. }
  assert (Hcell : worker_at σ1 w = Worker.mk a f None c c).
  { unfold worker_at; simpl. apply lookup_total_insert_eq. }
  assert (Hother : ∀ w', w' ∈ workers (queue σ) → worker_at σ1 w' = worker_at σ w').
  { intros w' Hin. unfold worker_at; simpl. apply lookup_total_insert_ne.
    intros <-. done. }
  split; [done|]. split; [simpl; set_solver|]. split; [done|].
  split; [done|]. split; [unfold Poll_select; by rewrite Hcell|].
  unfold Poll_select, cancel_context.
  rewrite worker_at_upd_worker, bool_decide_true by done. rewrite Hcell.
  unfold Worker.cancel; simpl.
  assert (Hq : ∀ σx, queue σx = queue σ1 →
            queue (upd_queue (λ q, set_workers (workers q ∖ {[w]}) q) σx)
            = queue σ).
  { intros σx Hx. simpl. rewrite Hx. simpl.
    destruct (queue σ) as [ws ? ? ? ? ?] eqn:Hqs. unfold set_workers; simpl.
    f_equal. simpl in Hnew. set_solver. }
  destruct c as [e0|]; simpl.
  - eexists _, _. split; [done|]. split; [done|]. split; [by apply Hq|].
    repeat split; try done.
    intros w' Hin. rewrite worker_at_upd_queue, worker_at_upd_worker.
    rewrite bool_decide_false by (intros ->; done). by apply Hother.
  - eexists _, _. split; [done|]. split; [done|]. split; [by apply Hq|].
    repeat split; try done.
    intros w' Hin. rewrite worker_at_upd_queue, worker_at_upd_worker.
    rewrite bool_decide_false by (intros ->; done). by apply Hother.
Qed.
End Regate.

(** ** Done twice, and what a pass leaves of the gating *)

Lemma assign_effect now i task w σ σ' :
  assign now i task w σ = Ok σ' →
  tasks σ'
  = <[task := set_AgentID (Worker.agentID (worker_at σ w)) (task_at σ task)]>
      (tasks σ) ∧
  entries σ'
  = <[fresh (dom (entries σ))
      := Entry.mk task Open None (now + extension (queue σ))]> (entries σ) ∧
  wheap σ' = <[w := Worker.set_channel (Some task) (worker_at σ w)]> (wheap σ) ∧
  extension (queue σ') = extension (queue σ).
Proof.
  unfold assign, send_task. simpl.
  destruct (Worker.channel _); [done|]. by intros [= <-].
Qed.

Section GatingPass.
Context {order : MapOrder}.

(** X11: when the ids in the queue are unique, a second [Done] of the same
    id with the same status completes and changes neither the queue nor the
    memory. *)
Theorem Done_twice (id : string) (exitStatus : StatusValue) (σ : state) :
  wf σ → unique_ids σ →
  ∃ σ1 σ2,
    Done id exitStatus σ = Ok (σ1, None) ∧
    Done id exitStatus σ1 = Ok (σ2, None) ∧
    queue σ2 = queue σ1 ∧ entries σ2 = entries σ1 ∧ wheap σ2 = wheap σ1 ∧
    ∀ p, task_at σ2 p = task_at σ1 p.
Proof.
  intros Hwf [Hnd Hrun]. unfold Done, finished. simpl.
  destruct (finished_id_ok exitStatus None id σ Hwf) as (σ1 & -> & Hs & Hwf1).
  simpl. pose proof (λ p, finished_step_task_id exitStatus None id σ σ1 p Hs) as Hid.
  destruct Hs as [Hrm Hpr].
  assert (Hr1 : running (queue σ1) !! id = None ∧ id ∉ pending_ids σ1).
  { destruct (running (queue σ) !! id) as [e|] eqn:Hr.
    - destruct (rm_running _ _ _ _ Hrm e Hr) as (_ & _ & _ & _ & Hrn & Hp).
      split; [rewrite Hrn; apply lookup_delete_eq|].
      rewrite (pending_ids_same _ _ Hp Hid). intros Hin.
      rewrite Hrun in Hr; [done|]. apply elem_of_app. by left.
    - destruct (decide (id ∈ pending_ids σ)) as [Hin|Hin].
      + destruct (rm_pending _ _ _ _ Hrm Hr Hin)
          as (l1 & p & l2 & Hp & Hpid & Hl1 & Hp' & Hrn).
        split; [by rewrite Hrn|].
        unfold pending_ids in *. rewrite Hp', (ids_same _ _ _ Hid).
        rewrite Hp in Hnd. rewrite fmap_app, fmap_cons, Hpid in Hnd.
        apply NoDup_app in Hnd as [Hnd _].
        apply NoDup_app in Hnd as (_ & Hdis & Hnd2).
        apply NoDup_cons in Hnd2 as [Hnotin _].
        rewrite fmap_app. intros [H|H]%elem_of_app; [|done].
        apply (Hdis _ H). left.
      + destruct (rm_unknown _ _ _ _ Hrm Hr Hin) as [Hp Hrn].
        split; [by rewrite Hrn|]. by rewrite (pending_ids_same _ _ Hp Hid). }
  destruct Hr1 as [Hr1 Hp1].
  destruct (finished_id_not_running exitStatus None id σ1 Hr1) as [Hsnd _].
  rewrite (removeFromPending_missing id σ1 Hp1) in Hsnd.
  destruct (updateDepStatusInQueue_spec id exitStatus σ1) as [(Hq & He & Hw & _) Hu].
  exists σ1, (updateDepStatusInQueue id exitStatus σ1).
  split; [done|]. split; [by rewrite Hsnd|].
  split; [done|]. split; [done|]. split; [done|].
  intros p. destruct (Hu p) as [Hu1 Hu2].
  destruct (decide (queued σ1 p)) as [Hqd|Hqd]; [|by apply Hu2].
  rewrite (Hu1 Hqd). rewrite (proj1 (pr_tasks _ _ _ _ Hpr p) Hqd).
  apply dep_written_idemp.
Qed.

(** The loop of [process] keeps what each of its rounds keeps. *)
Lemma assign_loop_invariant (I : state → Prop) fuel now σ σ' :
  (∀ σa i t w σb,
      wf σa → I σa → assignToWorker σa = Some (i, t, w) →
      assign now i t w σa = Ok σb → I σb) →
  wf σ → I σ → assign_loop fuel now σ = Ok σ' → I σ'.
Proof.
  intros Hstep. revert σ. induction fuel as [|fuel IH]; intros σ Hwf HI; simpl.
  - destruct (assignToWorker σ) as [[[i t] w]|]; [done|]. by intros [= <-].
  - destruct (assignToWorker σ) as [[[i t] w]|] eqn:Ha; [|by intros [= <-]].
    pose proof Ha as Ha'. apply assignToWorker_Some in Ha' as (Hi & Hw & _).
    destruct (assign_ok now i t w σ Hwf Hi Hw) as (σ1 & Heq & Hwf1 & _).
    rewrite Heq. simpl. apply IH; [done|]. by apply (Hstep σ i t w σ1).
Qed.

(** Gating in terms of the ids in the queue. *)
Lemma depsInQueue_ids σ t :
  depsInQueue σ t = true ↔
  ∃ dep, dep ∈ Dependencies (task_at σ t) ∧
         dep ∈ (list_to_set (pending_ids σ) : gset string) ∪ running_ids σ.
Proof.
  unfold depsInQueue, pending_ids, running_ids.
  rewrite orb_true_iff, !existsb_elem_of. split.
  - intros [(p & Hp & Hd) | ([id e] & Hkv & Hd)];
      apply existsb_elem_of in Hd as (dep & Hdep & Heq);
      apply bool_decide_eq_true in Heq; simpl in *; subst dep;
      eexists; (split; [exact Hdep|]); apply elem_of_union.
    + left. apply elem_of_list_to_set, list_elem_of_fmap. eauto.
    + right. apply elem_of_range_running in Hkv. apply elem_of_dom. eauto.
  - intros (dep & Hdep & [Hp | Hr]%elem_of_union).
    + left. apply elem_of_list_to_set, list_elem_of_fmap in Hp as (p & -> & Hp).
      exists p. split; [done|]. apply existsb_elem_of.
      exists (task_id σ p). split; [done|]. by apply bool_decide_eq_true.
    + right. apply elem_of_dom in Hr as [e He].
      exists (dep, e). split; [by apply elem_of_range_running|].
      apply existsb_elem_of. exists dep. split; [done|].
      by apply bool_decide_eq_true.
Qed.

Lemma filterWaiting_gating σ :
  (∀ t, t ∈ waitingOnDeps (queue (filterWaiting σ)) →
        ∃ dep, dep ∈ Dependencies (task_at (filterWaiting σ) t) ∧
               dep ∈ queued_ids (filterWaiting σ)) ∧
  (∀ t dep, t ∈ pending (queue (filterWaiting σ)) →
            dep ∈ Dependencies (task_at (filterWaiting σ) t) →
            dep ∉ queued_ids (filterWaiting σ)).
Proof.
  set (σ1 := upd_queue (λ q, set_waitingOnDeps []
                 (set_pending (pending q ++ waitingOnDeps q) q)) σ).
  assert (HQ : queued_ids (filterWaiting σ)
               = list_to_set (pending_ids σ1) ∪ running_ids σ1).
  { unfold queued_ids. rewrite <- list_to_set_app_L.
    f_equal. apply set_eq. intros x. rewrite !elem_of_list_to_set.
    unfold pending_ids, waiting_ids. rewrite <- fmap_app.
    change (task_id (filterWaiting σ)) with (task_id σ1).
    assert (Hperm : pending (queue (filterWaiting σ))
                    ++ waitingOnDeps (queue (filterWaiting σ))
                    ≡ₚ pending (queue σ1)).
    { apply filterWaiting_perm. }
    by rewrite Hperm. }
  split.
  - intros t Ht. rewrite HQ.
    change (task_at (filterWaiting σ) t) with (task_at σ1 t).
    apply (proj1 (depsInQueue_ids σ1 t)).
    unfold filterWaiting in Ht. simpl in Ht.
    by apply list_elem_of_filter in Ht as [? _].
  - intros t dep Ht Hdep. rewrite HQ. intros Hin.
    unfold filterWaiting in Ht. simpl in Ht.
    apply list_elem_of_filter in Ht as [Hf _].
    assert (depsInQueue σ1 t = true) as Htrue.
    { apply (proj2 (depsInQueue_ids σ1 t)). eauto. }
    revert Hf. change (depsInQueue σ1 t = false → False). by rewrite Htrue.
Qed.

Lemma queued_ids_assign σa σb i t e :
  pending (queue σa) !! i = Some t →
  pending (queue σb) = delete i (pending (queue σa)) →
  waitingOnDeps (queue σb) = waitingOnDeps (queue σa) →
  running (queue σb) = <[task_id σa t := e]> (running (queue σa)) →
  (∀ p, task_id σb p = task_id σa p) →
  queued_ids σb = queued_ids σa.
Proof.
  intros Hi Hp Hw Hr Hid. unfold queued_ids, running_ids.
  rewrite (waiting_ids_same _ _ Hw Hid), Hr, dom_insert_L.
  assert (Hpids : pending_ids σb = delete i (pending_ids σa)).
  { unfold pending_ids. rewrite Hp, (ids_same _ _ _ Hid). apply list_fmap_delete. }
  assert (Hi' : pending_ids σa !! i = Some (task_id σa t)).
  { unfold pending_ids. by rewrite list_lookup_fmap, Hi. }
  rewrite Hpids, delete_take_drop.
  rewrite <- (take_drop_middle _ _ _ Hi') at 3.
  rewrite !list_to_set_app_L, list_to_set_cons. set_solver.
Qed.

Lemma gating_step now σ2 σa i t w σb :
  wf σa → gating_inv σ2 σa → assignToWorker σa = Some (i, t, w) →
  assign now i t w σa = Ok σb → gating_inv σ2 σb.
Proof.
  intros Hwf (HQ & Hwt & Hdeps & Hpend & Hrun) Ha Hasg.
  apply assignToWorker_Some in Ha as (Hi & Hw & _).
  destruct (assign_ok now i t w σa Hwf Hi Hw)
    as (σb' & Heq & _ & Hp & Hwt' & Hr & _ & _ & _ & _ & _ & Hid).
  rewrite Hasg in Heq. injection Heq as <-.
  destruct (assign_effect now i t w σa σb Hasg) as (Ht & He & _ & _).
  split; [|split; [|split; [|split]]].
  - rewrite <- HQ. by apply (queued_ids_assign σa σb i t _ Hi Hp Hwt' Hr Hid).
  - by rewrite Hwt'.
  - intros p. rewrite <- Hdeps. unfold task_at. rewrite Ht.
    destruct (decide (p = t)) as [->|Hne].
    + by rewrite lookup_total_insert_eq.
    + by rewrite lookup_total_insert_ne.
  - intros t' Ht'. apply Hpend. rewrite Hp in Ht'.
    by apply list_elem_of_delete_inv in Ht'.
  - intros id e. rewrite Hr. unfold entry_at. rewrite He.
    intros [[<- <-] | [Hne Hl]]%lookup_insert_Some.
    + right. rewrite lookup_total_insert_eq. simpl. apply Hpend.
      by apply list_elem_of_lookup_2 in Hi.
    + assert (e ≠ fresh (dom (entries σa))).
      { intros ->. destruct (wf_entry _ Hwf _ _ Hl) as (Hd & _).
        by apply is_fresh in Hd. }
      rewrite lookup_total_insert_ne by done. by apply Hrun.
Qed.

(** X12: after a pass that is not paused, every task in waitingOnDeps
    lists the id of a task in the queue; no task in pending, and no task
    leased in this pass, lists the id of any task in pending,
    waitingOnDeps or running. *)
Theorem process_gating (now : Z) (σ : state) :
  wf σ → paused (queue σ) = false →
  ∃ σ',
    process now σ = Ok σ' ∧
    (∀ t, t ∈ waitingOnDeps (queue σ') →
          ∃ dep, dep ∈ Dependencies (task_at σ' t) ∧ dep ∈ queued_ids σ') ∧
    (∀ t dep, t ∈ pending (queue σ') →
              dep ∈ Dependencies (task_at σ' t) → dep ∉ queued_ids σ') ∧
    (∀ id e dep,
        running (queue σ') !! id = Some e →
        running (queue σ) !! id ≠ Some e →
        dep ∈ Dependencies (task_at σ' (Entry.item (entry_at σ' e))) →
        dep ∉ queued_ids σ').
Proof.
  intros Hwf Hpa. unfold process. rewrite Hpa.
  unfold resubmitExpiredPipelines.
  destruct (resubmit_loop now (range_running (running (queue σ))) σ Hwf)
    as (σ1 & Hsweep & Hwf1 & _ & Hexp & Hkeep & _).
  { apply NoDup_range_running. }
  { intros id e. apply elem_of_range_running. }
  rewrite Hsweep. simpl.
  assert (Hsub : ∀ id e, running (queue σ1) !! id = Some e →
                         running (queue σ) !! id = Some e).
  { intros id e H1. destruct (running (queue σ) !! id) as [e0|] eqn:Hr.
    - destruct (decide (expired now σ (id, e0))) as [Hx|Hx].
      + destruct (Hexp id e0) as [Hn _]; [by apply elem_of_range_running|done|].
        congruence.
      + rewrite Hkeep in H1; [congruence|]. intros e' He'.
        apply elem_of_range_running in He'. by simplify_eq.
    - rewrite Hkeep in H1; [congruence|]. intros e' He'.
      apply elem_of_range_running in He'. congruence. }
  set (σ2 := filterWaiting σ1).
  assert (Hwf2 : wf σ2) by by apply filterWaiting_ok.
  destruct (assign_loop_ok (length (pending (queue σ2))) now σ2 Hwf2)
    as (σ' & Hloop & _); [done|].
  exists σ'. split; [done|].
  destruct (filterWaiting_gating σ1) as [Hg1 Hg2]. fold σ2 in Hg1, Hg2.
  assert (Hinv : gating_inv σ2 σ').
  { apply (assign_loop_invariant (gating_inv σ2) (length (pending (queue σ2)))
             now σ2 σ'); try done.
    - intros σa i t w σb. apply gating_step.
    - repeat split; try done. intros id e H. by left. }
  destruct Hinv as (HQ & Hwt & Hdeps & Hpend & Hrun).
  split; [|split].
  - intros t Ht. rewrite Hwt in Ht. rewrite HQ, Hdeps. by apply Hg1.
  - intros t dep Ht Hdep. rewrite HQ. rewrite Hdeps in Hdep.
    apply (Hg2 t dep); [by apply Hpend | done].
  - intros id e dep He Hnew Hdep. rewrite HQ. rewrite Hdeps in Hdep.
    destruct (Hrun id e He) as [Hold | Hitem].
    + exfalso. apply Hnew. by apply Hsub.
    + by apply (Hg2 _ dep Hitem).
Qed.
End GatingPass.

(** ** What a pass hands to the workers *)



Section Delivery.
Context {order : MapOrder}.


End Delivery.

(** ** A pass loses no task *)

Section Conservation.
Context {order : MapOrder}.

Lemma items_step now σ2 σa i t w σb :
  wf σa → items_inv σ2 σa → assignToWorker σa = Some (i, t, w) →
  assign now i t w σa = Ok σb → items_inv σ2 σb.
Proof.
  intros Hwf [Hu Hperm] Ha Hasg.
  apply assignToWorker_Some in Ha as (Hi & Hw & _).
  destruct (assign_ok now i t w σa Hwf Hi Hw)
    as (σb' & Heq & _ & Hp & Hwt & Hr & _ & _ & _ & _ & _ & Hid).
  rewrite Hasg in Heq. injection Heq as <-.
  destruct (assign_effect now i t w σa σb Hasg) as (_ & He & _ & _).
  split; [by apply (unique_ids_assign σa σb i t _ Hi Hp Hwt Hr Hid)|].
  rewrite <- Hperm. unfold queued_items. rewrite Hp, Hwt, Hr.
  assert (Hnone : running (queue σa) !! task_id σa t = None).
  { destruct Hu as [_ Hu]. apply Hu. apply elem_of_app. left.
    unfold pending_ids. apply list_elem_of_fmap. exists t.
    split; [done|]. by apply list_elem_of_lookup_2 in Hi. }
  assert (Hold : leased_items σb (map_to_list (running (queue σa)))
                 = leased_items σa (map_to_list (running (queue σa)))).
  { unfold leased_items. apply list_fmap_ext. intros k [id e] Hl. simpl.
    apply list_elem_of_lookup_2, elem_of_map_to_list in Hl.
    destruct (wf_entry _ Hwf _ _ Hl) as (Hd & _).
    unfold entry_at. rewrite He, lookup_total_insert_ne; [done|].
    intros <-. by apply is_fresh in Hd. }
  unfold leased_items in *. rewrite (map_to_list_insert _ _ _ Hnone).
  rewrite fmap_cons, Hold. simpl. unfold entry_at at 1.
  rewrite He, lookup_total_insert_eq. simpl.
  rewrite (delete_Permutation _ _ _ Hi) at 2.
  simpl. rewrite <- !Permutation_middle. done.
Qed.

Lemma sweep_items now σ σ1 :
  wf σ → resubmitExpiredPipelines now σ = Ok σ1 →
  queued_items σ1 ≡ₚ queued_items σ.
Proof.
  intros Hwf Hsweep. unfold resubmitExpiredPipelines in Hsweep.
  set (l := range_running (running (queue σ))) in *.
  destruct (resubmit_loop now l σ Hwf)
    as (σ1' & Hsweep' & _ & Hp & Hexp & Hkeep & Hents & Hwt & _).
  { apply NoDup_range_running. }
  { intros id e. apply elem_of_range_running. }
  rewrite Hsweep in Hsweep'. injection Hsweep' as <-.
  assert (Hitem : ∀ e, Entry.item (entry_at σ1 e) = Entry.item (entry_at σ e)).
  { intros e.
    destruct (decide (Exists (λ kv, kv.2 = e ∧ expired now σ kv) l)) as [Hex|Hex].
    - apply Exists_exists in Hex as ([id e0] & Hin & Heq & Hx). simpl in Heq.
      subst e0. destruct (Hexp id e Hin Hx) as [_ ->]. done.
    - rewrite Hents; [done|]. intros id Hin Hx. apply Hex.
      apply Exists_exists. exists (id, e). done. }
  set (L := map_to_list (running (queue σ))).
  assert (HlL : l ≡ₚ L) by apply range_running_perm.
  assert (Hrun : map_to_list (running (queue σ1))
                 ≡ₚ filter (λ kv, ¬ expired now σ kv) L).
  { apply NoDup_Permutation.
    - apply NoDup_map_to_list.
    - apply NoDup_filter, NoDup_map_to_list.
    - intros [id e]. rewrite elem_of_map_to_list, list_elem_of_filter.
      unfold L. rewrite elem_of_map_to_list. split.
      + intros H1. destruct (running (queue σ) !! id) as [e0|] eqn:Hr.
        * destruct (decide (expired now σ (id, e0))) as [Hx|Hx].
          -- destruct (Hexp id e0) as [Hn _];
               [by apply elem_of_range_running|done|]. congruence.
          -- rewrite Hkeep in H1.
             ++ rewrite Hr in H1. injection H1 as ->. done.
             ++ intros e' He'. apply elem_of_range_running in He'.
                by simplify_eq.
        * rewrite Hkeep in H1; [congruence|]. intros e' He'.
          apply elem_of_range_running in He'. congruence.
      + intros [Hx Hr]. rewrite Hkeep; [done|]. intros e' He'.
        apply elem_of_range_running in He'. by simplify_eq. }
  assert (Hli : ∀ M, leased_items σ1 M = leased_items σ M).
  { intros M. unfold leased_items. apply list_fmap_ext. intros k kv _. apply Hitem. }
  unfold queued_items. rewrite Hp, Hwt, Hli.
  unfold leased_items. rewrite Hrun, reverse_Permutation. fold l. rewrite HlL.
  fold L.
  rewrite <- (filter_app_complement (expired now σ) L) at 3.
  rewrite fmap_app.
  set (A := (λ kv : string * eref, Entry.item (entry_at σ kv.2)) <$> filter (expired now σ) L).
  set (B := (λ kv : string * eref, Entry.item (entry_at σ kv.2))
              <$> filter (λ kv, ¬ expired now σ kv) L).
  rewrite <- !app_assoc.
  rewrite (Permutation_app_comm A). rewrite <- !app_assoc.
  apply Permutation_app_head. apply Permutation_app_head.
  apply Permutation_app_comm.
Qed.

(** X14: when the ids in the queue are unique, a pass neither loses nor
    duplicates a task: pending, waitingOnDeps and the tasks of the leases
    hold after the pass the tasks they held before, each as often. *)
Theorem process_keeps_tasks (now : Z) (σ : state) :
  wf σ → unique_ids σ →
  ∃ σ', process now σ = Ok σ' ∧ queued_items σ' ≡ₚ queued_items σ.
Proof.
  intros Hwf Hu. unfold process. destruct (paused (queue σ)); [by exists σ|].
  destruct (resubmit_ok now σ Hwf) as (σ1 & Hsweep & Hwf1 & Hu1).
  rewrite Hsweep. simpl.
  pose proof (sweep_items now σ σ1 Hwf Hsweep) as Hs.
  set (σ2 := filterWaiting σ1).
  destruct (filterWaiting_ok σ1) as [Hwf2 Hu2]. fold σ2 in Hwf2, Hu2.
  destruct (assign_loop_ok (length (pending (queue σ2))) now σ2 (Hwf2 Hwf1))
    as (σ' & Hloop & _); [done|].
  exists σ'. split; [done|].
  assert (Hinv : items_inv σ2 σ').
  { apply (assign_loop_invariant (items_inv σ2)
             (length (pending (queue σ2))) now σ2 σ'); try done; [|auto|].
    - intros σa i t w σb. apply items_step.
    - split; [auto|done]. }
  destruct Hinv as [_ ->]. rewrite <- Hs.
  unfold queued_items. rewrite !app_assoc.
  apply Permutation_app; [apply filterWaiting_perm|done].
Qed.
End Conservation.

(** ** A whole pass past a deadline *)

Section Expiry.
Context {order : MapOrder}.

(** The sweep frees no entry. *)
Lemma resubmit_dom now l σ σ' :
  for_each (resubmit_entry now) l σ = Ok σ' →
  dom (entries σ) ⊆ dom (entries σ').
Proof.
  revert σ. induction l as [|[id e] l IH]; intros σ; simpl.
  - by intros [= <-].
  - simpl. case_bool_decide; simpl; [|apply IH].
    unfold close_done. destruct (Entry.done _); simpl; [|done].
    intros Hrest. apply IH in Hrest. etrans; [|exact Hrest].
    intros x Hx. by apply dom_upd_entry.
Qed.

(** With no worker registered the loop of [process] has nothing to do. *)
Lemma assignToWorker_no_workers σ :
  workers (queue σ) = ∅ → assignToWorker σ = None.
Proof.
  intros Hw. destruct (assignToWorker σ) as [[[i t] w]|] eqn:H; [|done].
  apply assignToWorker_Some in H as (_ & Hin & _). rewrite Hw in Hin.
  by apply not_elem_of_empty in Hin.
Qed.


(** A pass past the deadline of a lease closes its entry for good: the
    loop of [process] allocates its entries afresh. *)
Lemma pass_expired_entry now id e σ :
  wf σ → paused (queue σ) = false →
  running (queue σ) !! id = Some e →
  (Entry.deadline (entry_at σ e) < now)%Z →
  ∃ σ', process now σ = Ok σ' ∧ wf σ' ∧
        extension (queue σ') = extension (queue σ) ∧
        entry_at σ' e = Entry.set_done Closed (entry_at σ e) ∧
        (workers (queue σ) = ∅ → running (queue σ') !! id = None).
Proof.
  intros Hwf Hp Hr Hx. unfold process. rewrite Hp.
  destruct (wf_entry _ Hwf _ _ Hr) as (Hdom & _).
  unfold resubmitExpiredPipelines.
  destruct (resubmit_loop now (range_running (running (queue σ))) σ Hwf)
    as (σ1 & Hsweep & Hwf1 & _ & Hexp & _ & _ & _ & Hws & _ & Hext & _).
  { apply NoDup_range_running. }
  { intros id' e'. apply elem_of_range_running. }
  destruct (Hexp id e) as [Hnone Hent]; [by apply elem_of_range_running|done|].
  pose proof (resubmit_dom _ _ _ _ Hsweep) as Hsub.
  rewrite Hsweep. simpl.
  set (σ2 := filterWaiting σ1).
  destruct (filterWaiting_frame σ1)
    as (Hr2 & Hw2 & _ & Hext2 & _ & He2 & _). fold σ2 in Hr2, Hw2, Hext2, He2.
  destruct (filterWaiting_ok σ1) as [Hwf2 _]. fold σ2 in Hwf2.
  specialize (Hwf2 Hwf1).
  destruct (assign_loop_ok (length (pending (queue σ2))) now σ2 Hwf2)
    as (σ' & Hloop & Hwf' & _); [done|].
  exists σ'. split; [done|]. split; [done|].
  assert (Hinv : e ∈ dom (entries σ') ∧ entry_at σ' e = entry_at σ2 e ∧
                 extension (queue σ') = extension (queue σ2)).
  { apply (assign_loop_invariant
             (λ σk, e ∈ dom (entries σk) ∧ entry_at σk e = entry_at σ2 e ∧
                    extension (queue σk) = extension (queue σ2))
             (length (pending (queue σ2))) now σ2 σ'); try done.
    - intros σa i t w σb _ (Hd & Hsame & Hex) _ Hstep.
      destruct (assign_effect _ _ _ _ _ _ Hstep) as (_ & Hents & _ & Hex').
      assert (Hne : e ≠ fresh (dom (entries σa))).
      { intros ->. by apply (is_fresh (dom (entries σa))). }
      split; [rewrite Hents, dom_insert_L; set_solver|].
      split; [|congruence].
      rewrite <- Hsame. unfold entry_at. rewrite Hents.
      by apply lookup_total_insert_ne.
    - split; [rewrite He2; by apply Hsub|done]. }
  destruct Hinv as (_ & Hsame & Hex).
  split; [congruence|].
  split; [rewrite Hsame, (entry_at_same σ1 σ2 e He2); exact Hent|].
  intros Hnow.
  assert (Hnone2 : assignToWorker σ2 = None).
  { apply assignToWorker_no_workers. by rewrite Hw2, Hws. }
  destruct (length (pending (queue σ2))); simpl in Hloop;
    rewrite Hnone2 in Hloop; injection Hloop as <-; by rewrite Hr2.
Qed.

End Expiry.

(** ** Pause, Resume and the pass that Resume starts *)

Section PauseResume.
Context {order : MapOrder}.

End PauseResume.

(** ** Waiting on an expired lease, and waking the dispatcher *)

Section Wakeups.
Context {order : MapOrder}.

(** X15: a [Wait] on a leased id blocks on the entry while the lease is
    open.  After a pass past the deadline that [Wait] returns nil: for the
    waiter an expiry is not told apart from a success.  A [Wait] that
    starts after the pass blocks on the new entry when the task was leased
    again in the pass; with no worker registered it was not, and the
    [Wait] returns nil at once. *)
Theorem wait_on_expiry (now : Z) (id : string) (e : eref) (c : goerror)
    (σ : state) :
  wf σ → running (queue σ) !! id = Some e →
  Wait c id WaitEntryDone σ σ = None ∧
  (paused (queue σ) = false → (Entry.deadline (entry_at σ e) < now)%Z →
   ∃ σ', process now σ = Ok σ' ∧
         Wait c id WaitEntryDone σ σ' = Some None ∧
         (∀ c' e', running (queue σ') !! id = Some e' →
                   e' ≠ e ∧ Wait c' id WaitEntryDone σ' σ' = None) ∧
         (workers (queue σ) = ∅ →
          ∀ c' cs σ'', Wait c' id cs σ' σ'' = Some None)).
Proof.
  intros Hwf Hr. destruct (wf_entry _ Hwf _ _ Hr) as (_ & Hopen & Herr & _).
  split; [unfold Wait, Wait_lookup, Wait_select; by rewrite Hr, Hopen|].
  intros Hp Hx.
  destruct (pass_expired_entry now id e σ Hwf Hp Hr Hx)
    as (σ' & Hpass & Hwf' & _ & Hent & Hnow).
  exists σ'. split; [done|]. split; [|split].
  - unfold Wait, Wait_lookup, Wait_select. rewrite Hr, Hent. simpl.
    by rewrite Herr.
  - intros c' e' H. destruct (wf_entry _ Hwf' _ _ H) as (_ & Ho & _).
    split; [intros ->; by rewrite Hent in Ho|].
    unfold Wait, Wait_lookup, Wait_select. by rewrite H, Ho.
  - intros Hw c' cs σ''. unfold Wait, Wait_lookup. by rewrite (Hnow Hw).
Qed.

Lemma finished_id_dispatchers st err id σ σ' :
  finished_id st err id σ = Ok σ' → dispatchers σ' = dispatchers σ.
Proof.
  unfold finished_id.
  destruct (running (queue σ) !! id) as [e|].
  - unfold close_done. destruct (Entry.done _); simpl; [|done].
    intros [= <-].
    by destruct (updateDepStatusInQueue_spec id st
      (upd_queue (λ q, set_running (delete id (running q)) q)
         (upd_entry e (Entry.set_done Closed)
            (upd_entry e (Entry.set_error err) σ)))) as [(_ & _ & _ & ->) _].
  - simpl. intros [= <-].
    destruct (updateDepStatusInQueue_spec id st (removeFromPending id σ))
      as [(_ & _ & _ & ->) _].
    by destruct (removeFromPending_frame id σ) as (_ & _ & _ & _ & _ & _ & _ & _ & ->).
Qed.

Lemma finished_dispatchers ids st err σ r :
  finished ids st err σ = Ok r → dispatchers r.1 = dispatchers σ.
Proof.
  unfold finished. revert σ. induction ids as [|id ids IH]; intros σ; simpl.
  - by intros [= <-].
  - destruct (finished_id st err id σ) as [σ1| | |] eqn:H1; simpl; try done.
    intros H. rewrite (IH σ1 H). by apply (finished_id_dispatchers st err id).
Qed.

Lemma Kick_loop_dispatchers a l σ :
  dispatchers (foldl (λ σ w,
                     if bool_decide (Worker.agentID (worker_at σ w) = a)
                     then upd_queue (λ q, set_workers (workers q ∖ {[w]}) q)
                            (upd_worker w (Worker.stop ErrWorkerKicked) σ)
                     else σ) σ l)
  = dispatchers σ.
Proof.
  revert σ. induction l as [|w l IH]; intros σ; simpl; [done|].
  case_bool_decide; by rewrite IH.
Qed.

Lemma EvictAtOnce_dispatchers ids σ :
  dispatchers (EvictAtOnce ids σ).1 = dispatchers σ.
Proof.
  induction ids as [|i ids IH]; simpl; [done|].
  by destruct (remove_first σ i (pending (queue σ))).
Qed.

Lemma process_dispatchers now σ σ' :
  wf σ → process now σ = Ok σ' → dispatchers σ' = dispatchers σ.
Proof.
  intros Hwf. unfold process. destruct (paused (queue σ)); [by intros [= <-]|].
  unfold resubmitExpiredPipelines.
  destruct (resubmit_loop now (range_running (running (queue σ))) σ Hwf)
    as (σ1 & Hsweep & Hwf1 & _ & _ & _ & _ & _ & _ & _ & _ & _ & _ & Hd).
  { apply NoDup_range_running. }
  { intros id e. apply elem_of_range_running. }
  rewrite Hsweep. simpl. intros Hloop. rewrite <- Hd.
  eapply (assign_loop_invariant (λ s, dispatchers s = dispatchers σ1)
           _ now (filterWaiting σ1) σ'); [| | |exact Hloop]; try done.
  - intros σa i t w σb Hwfa Hda Ha Hasg.
    apply assignToWorker_Some in Ha as (Hi & Hw & _).
    destruct (assign_ok now i t w σa Hwfa Hi Hw)
      as (σb' & Heq & _ & _ & _ & _ & _ & _ & _ & Hdb & _).
    rewrite Hasg in Heq. injection Heq as <-. by rewrite Hdb.
  - by apply filterWaiting_ok.
Qed.

(** X16: which calls wake the dispatcher: [Push], [PushAtOnce], [Poll]
    and [Resume] start one dispatcher goroutine each; [Done], [Error],
    [ErrorAtOnce], [Evict], [EvictAtOnce], [Extend], [Pause],
    [KickAgentWorkers] and the rounds of a [Poll] start none; a pass takes
    one away.  Every call completes. *)
Theorem dispatcher_wakeups (o : op) (σ : state) :
  wf σ →
  ∃ σ', exec o σ = Ok σ' ∧
        dispatchers σ' =
        match o with
        | OpProcess _ => pred (dispatchers σ)
        | _ => dispatchers σ + spawns o
        end.
Proof.
  intros Hwf. destruct (exec_ok o σ Hwf) as (σ' & Hex & _).
  exists σ'. split; [done|]. destruct o; simpl in *.
  - injection Hex as <-. simpl. lia.
  - injection Hex as <-. unfold PushAtOnce. simpl.
    assert (∀ ts s, dispatchers (foldl (λ σ task,
               upd_queue (λ q, set_pending (pending q ++ [task]) q) σ) s ts)
             = dispatchers s) as ->; [|lia].
    induction ts as [|t ts IH]; intros s; simpl; [done|]. by rewrite IH.
  - injection Hex as <-. simpl. lia.
  - unfold Poll_select in Hex. destruct cs.
    + destruct (Worker.ctx_err _); injection Hex as <-; simpl; lia.
    + destruct (Worker.channel _); injection Hex as <-; simpl; lia.
  - injection Hex as <-. simpl. lia.
  - destruct (Done id exitStatus σ) as [r| | |] eqn:Hd; simpl in Hex; try done.
    injection Hex as <-. rewrite (finished_dispatchers _ _ _ _ _ Hd). lia.
  - destruct (Error id err σ) as [r| | |] eqn:Hd; simpl in Hex; try done.
    injection Hex as <-. rewrite (finished_dispatchers _ _ _ _ _ Hd). lia.
  - destruct (ErrorAtOnce ids err σ) as [r| | |] eqn:Hd; simpl in Hex; try done.
    injection Hex as <-. rewrite (finished_dispatchers _ _ _ _ _ Hd). lia.
  - injection Hex as <-. unfold Evict. rewrite EvictAtOnce_dispatchers. lia.
  - injection Hex as <-. rewrite EvictAtOnce_dispatchers. lia.
  - injection Hex as <-. unfold Extend.
    destruct (running (queue σ) !! id); simpl; lia.
  - injection Hex as <-. simpl. lia.
  - injection Hex as <-. simpl. lia.
  - injection Hex as <-. unfold KickAgentWorkers.
    rewrite Kick_loop_dispatchers. lia.
  - unfold run_dispatcher in Hex. destruct (dispatchers σ) as [|n] eqn:Hn.
    + by injection Hex as <-.
    + rewrite (process_dispatchers now (set_dispatchers n σ) σ'); [done| |done].
      by apply (wf_ext σ).
Qed.
End Wakeups.

(** ** The further properties on concrete queues *)

#[local] Existing Instance canonical_order.

(** A run of fresh pushes from the empty queue keeps the ids unique. *)
Lemma unique_ids_scenario ops :
  fresh_pushes (order := canonical_order) ops (init memory) →
  unique_ids (scenario ops).
Proof.
  intros Hf. unfold scenario.
  destruct (run_ok (order := canonical_order) ops (init memory) (wf_init _))
    as (σ' & -> & _ & Hu).
  apply Hu; [exact Hf|apply unique_ids_init].
Qed.

Lemma unique_ids_leased : unique_ids leased.
Proof.
  apply (unique_ids_scenario leased_ops).
  apply (bool_decide_unpack _). vm_compute. exact I.
Qed.

Lemma unique_ids_ready : unique_ids ready.
Proof.
  apply (unique_ids_scenario ready_ops).
  apply (bool_decide_unpack _). vm_compute. exact I.
Qed.

Lemma Extend_keeps_lease_witness :
  wf leased ∧ running (queue leased) !! "A" = Some 0 ∧
  (100 ≤ 5 + extension (queue leased))%Z ∧
  ∃ σ1 σ', Extend 5 "A" leased = (σ1, None) ∧
           Entry.deadline (entry_at σ1 0) = (5 + extension (queue leased))%Z ∧
           resubmitExpiredPipelines (order := canonical_order) 100 σ1 = Ok σ' ∧
           running (queue σ') !! "A" = Some 0 ∧
           Entry.done (entry_at σ' 0) = Open.
Proof.
  assert (Hr : running (queue leased) !! "A" = Some 0) by reflexivity.
  assert (Hle : (100 ≤ 5 + extension (queue leased))%Z)
    by (vm_compute; discriminate).
  split; [apply wf_scenario|]. split; [exact Hr|]. split; [exact Hle|].
  destruct (Extend_keeps_lease (order := canonical_order) 5 100 "A" 0 leased
              (wf_scenario leased_ops) Hr Hle)
    as (σ1 & σ' & H1 & H2 & _ & _ & _ & _ & H3 & H4 & _ & H5).
  exists σ1, σ'. auto.
Defined.


Lemma kicked_poll_returns_canceled_witness :
  0 ∈ workers (queue polling) ∧
  Worker.agentID (worker_at polling 0) = 7%Z ∧
  Worker.ctx_err (worker_at polling 0) = None ∧
  ∃ σ', Poll_select 0 PollCtxDone
          (KickAgentWorkers (order := canonical_order) 7 polling)
        = Some (σ', (None, Some ErrCanceled)) ∧
        Worker.ctx_cause
          (worker_at (KickAgentWorkers (order := canonical_order) 7 polling) 0)
        = Some ErrWorkerKicked.
Proof.
  assert (Hw : 0 ∈ workers (queue polling)).
  { apply (bool_decide_unpack _). vm_compute. exact I. }
  split; [exact Hw|]. split; [reflexivity|]. split; [reflexivity|].
  destruct (kicked_poll_returns_canceled (order := canonical_order)
              7 0 polling Hw eq_refl eq_refl)
    as (σ' & H1 & H2 & _).
  exists σ'. auto.
Defined.

Lemma process_matches_all_witness :
  wf ready ∧ paused (queue ready) = false ∧
  ∃ σ', process (order := canonical_order) 0 ready = Ok σ' ∧
        ∀ t w, t ∈ pending (queue σ') → w ∈ workers (queue σ') →
               Worker.filter (worker_at σ' w) (task_at σ' t) = false.
Proof.
  split; [apply wf_scenario|]. split; [reflexivity|].
  exact (process_matches_all (order := canonical_order) 0 ready
           (wf_scenario ready_ops) eq_refl).
Defined.

Lemma cancelled_poll_leaves_no_trace_witness :
  wf leased ∧
  ∃ e' σ2,
    Poll_select (Poll_register None 7 accept_all leased).1 PollCtxDone
      (cancel_context (Poll_register None 7 accept_all leased).1 ErrCanceled
         (Poll_register None 7 accept_all leased).2)
    = Some (σ2, (None, Some e')) ∧
    e' = ErrCanceled ∧ queue σ2 = queue leased.
Proof.
  split; [apply wf_scenario|].
  destruct (cancelled_poll_leaves_no_trace None 7 accept_all ErrCanceled leased
              (wf_scenario leased_ops))
    as (_ & _ & _ & _ & _ & e' & σ2 & H1 & H2 & H3 & _).
  exists e', σ2. auto.
Defined.

Lemma Done_twice_witness :
  wf leased ∧ unique_ids leased ∧
  ∃ σ1 σ2, Done (order := canonical_order) "A" "success" leased = Ok (σ1, None) ∧
           Done (order := canonical_order) "A" "success" σ1 = Ok (σ2, None) ∧
           queue σ2 = queue σ1 ∧
           ∀ p, task_at σ2 p = task_at σ1 p.
Proof.
  split; [apply wf_scenario|]. split; [apply unique_ids_leased|].
  destruct (Done_twice (order := canonical_order) "A" "success" leased
              (wf_scenario leased_ops) unique_ids_leased)
    as (σ1 & σ2 & H1 & H2 & H3 & _ & _ & H4).
  exists σ1, σ2. auto.
Defined.

Lemma process_gating_witness :
  wf ready ∧ paused (queue ready) = false ∧
  ∃ σ', process (order := canonical_order) 0 ready = Ok σ' ∧
        (∀ t, t ∈ waitingOnDeps (queue σ') →
              ∃ dep, dep ∈ Dependencies (task_at σ' t) ∧ dep ∈ queued_ids σ') ∧
        (∀ t dep, t ∈ pending (queue σ') → dep ∈ Dependencies (task_at σ' t) →
                  dep ∉ queued_ids σ').
Proof.
  split; [apply wf_scenario|]. split; [reflexivity|].
  destruct (process_gating (order := canonical_order) 0 ready
              (wf_scenario ready_ops) eq_refl)
    as (σ' & H1 & H2 & H3 & _).
  exists σ'. auto.
Defined.


Lemma process_keeps_tasks_witness :
  wf ready ∧ unique_ids ready ∧
  ∃ σ', process (order := canonical_order) 0 ready = Ok σ' ∧
        queued_items σ' ≡ₚ queued_items ready.
Proof.
  split; [apply wf_scenario|]. split; [apply unique_ids_ready|].
  exact (process_keeps_tasks (order := canonical_order) 0 ready
           (wf_scenario ready_ops) unique_ids_ready).
Defined.

Lemma wait_on_expiry_witness :
  wf leased ∧ running (queue leased) !! "A" = Some 0 ∧
  Wait None "A" WaitEntryDone leased leased = None ∧
  ∃ σ', process (order := canonical_order) 700000000000 leased = Ok σ' ∧
        Wait None "A" WaitEntryDone leased σ' = Some None ∧
        Wait None "A" WaitEntryDone σ' σ' = Some None.
Proof.
  assert (Hr : running (queue leased) !! "A" = Some 0) by reflexivity.
  assert (Hw : workers (queue leased) = ∅) by reflexivity.
  split; [apply wf_scenario|]. split; [exact Hr|].
  destruct (wait_on_expiry (order := canonical_order) 700000000000 "A" 0 None
              leased (wf_scenario leased_ops) Hr) as (H1 & H2).
  split; [exact H1|].
  destruct H2 as (σ' & H3 & H4 & _ & H5); [reflexivity..|].
  exists σ'. split; [exact H3|]. split; [exact H4|]. exact (H5 Hw _ _ _).
Defined.

Lemma dispatcher_wakeups_witness :
  wf leased ∧
  ∃ σ', exec (order := canonical_order) (OpPush 3) leased = Ok σ' ∧
        dispatchers σ' = dispatchers leased + 1.
Proof.
  split; [apply wf_scenario|].
  exact (dispatcher_wakeups (order := canonical_order) (OpPush 3) leased
           (wf_scenario leased_ops)).
Defined.

(** ** Pause and Resume on a concrete queue *)



